(** * The composable architecture: effects, reducers and the store

    A shallow embedding of [Effect.ts], [Reducer.ts], [PropertyPath.ts],
    [DependencyValues.ts] and the [RootStore] of [Store.ts]. The reducers
    are those of [Reducer.ts], the ones [RootStore] runs; the earlier
    draft of that file, whose reducers return an effect only, is not
    embedded, nor are [ScopedStore] and the React hook.

    Conventions of the embedding:
    - a JavaScript value that may be [null] or [undefined] is an [option];
    - the truthiness tests of the source ([if (!x)], [if (x.id)]) go through
      the class [Truthy], the identity test [===] through [StrictEq];
    - objects that are shared and mutated ([EffectContext]) live in a store
      [Mem] and are passed around as references;
    - a JavaScript [Map] that is iterated is an association list kept in
      insertion order; one that is only looked up is a [gmap];
    - callbacks supplied by the caller (cleanup hooks, subscribers) are
      opaque: calling one is recorded in a log. *)

From stdpp Require Import gmap strings list.
From Stdlib Require Import ZArith.

Set Default Proof Using "Type".
Local Set Warnings "-register-all".

(* ================================================================== *)
(** ** JavaScript truthiness and strict equality *)

Class Truthy (A : Type) := truthy : A → bool.
Class StrictEq (A : Type) := strict_eq : A → A → bool.
Global Hint Mode Truthy ! : typeclass_instances.
Global Hint Mode StrictEq ! : typeclass_instances.

#[export] Instance Z_truthy : Truthy Z := λ z, negb (z =? 0)%Z.
#[export] Instance bool_truthy : Truthy bool := λ b, b.
#[export] Instance string_truthy : Truthy string :=
  λ s, match s with EmptyString => false | String _ _ => true end.
#[export] Instance unit_truthy : Truthy unit := λ _, false.
#[export] Instance option_truthy `{Truthy A} : Truthy (option A) :=
  λ o, match o with Some x => truthy x | None => false end.

#[export] Instance Z_strict_eq : StrictEq Z := Z.eqb.
#[export] Instance string_strict_eq : StrictEq string := String.eqb.
#[export] Instance option_strict_eq `{StrictEq A} : StrictEq (option A) :=
  λ x y, match x, y with
         | Some a, Some b => strict_eq a b
         | None, None => true
         | _, _ => false
         end.

(* ================================================================== *)
(** ** Insertion-ordered maps (JavaScript [Map]) *)

Module JsMap.
Section JsMap.
Context {V : Type}.

Fixpoint get (k : string) (m : list (string * V)) : option V :=
  match m with
  | [] => None
  | (k', v) :: m' => if String.eqb k k' then Some v else get k m'
  end.

(** [set] overwrites in place when the key exists and appends otherwise. *)
Fixpoint set (k : string) (v : V) (m : list (string * V)) : list (string * V) :=
  match m with
  | [] => [(k, v)]
  | (k', v') :: m' =>
      if String.eqb k k' then (k, v) :: m' else (k', v') :: set k v m'
  end.

Definition delete (k : string) (m : list (string * V)) : list (string * V) :=
  filter (λ kv, negb (String.eqb k kv.1)) m.
End JsMap.
End JsMap.

(* ================================================================== *)
(** ** Effect.ts: EffectContext *)

(** A cleanup callback [() => void]; invoking it is logged under its name. *)
Definition Hook := string.

Record EffectContext := mkEffectContext {
  onCancellation : option Hook;
  isCancelled : bool
}.

(** [new EffectContext()] *)
Definition new_EffectContext : EffectContext := mkEffectContext None false.

Module EffectContext.
(** [cancel()]: the context after the call and the hooks it invoked. *)
Definition cancel (c : EffectContext) : EffectContext * list Hook :=
  if isCancelled c then (c, [])
  else
    let c' := mkEffectContext (onCancellation c) true in
    match onCancellation c' with
    | Some h => (c', [h])
    | None => (c', [])
    end.
End EffectContext.

(** Contexts are objects: they are allocated in [contexts] and named by
    their index. [cleanups] logs every hook invocation, oldest first. *)
Definition CtxRef := nat.

Record Mem := mkMem {
  contexts : list EffectContext;
  cleanups : list Hook
}.

Definition empty_Mem : Mem := mkMem [] [].

Definition alloc (m : Mem) : CtxRef * Mem :=
  (length (contexts m), mkMem (contexts m ++ [new_EffectContext]) (cleanups m)).

Definition is_cancelled (m : Mem) (r : CtxRef) : bool :=
  match contexts m !! r with
  | Some c => isCancelled c
  | None => false
  end.

(** [context.cancel()] through a reference. *)
Definition cancel_ref (r : CtxRef) (m : Mem) : Mem :=
  match contexts m !! r with
  | Some c =>
      let '(c', hs) := EffectContext.cancel c in
      mkMem (<[r := c']> (contexts m)) (cleanups m ++ hs)
  | None => m
  end.

(** [context.onCancellation = h], done by a producer on its own context. *)
Definition set_hook (r : CtxRef) (h : option Hook) (m : Mem) : Mem :=
  match h, contexts m !! r with
  | Some _, Some c =>
      mkMem (<[r := mkEffectContext h (isCancelled c)]> (contexts m)) (cleanups m)
  | _, _ => m
  end.

(* ================================================================== *)
(** ** Effect.ts: producers, effect nodes and effects *)

(** The caller's [(context) => Promise<Action>]: the hook it installs on its
    context when called, and the value it fulfils with ([None]: it never
    fulfils). *)
Record Promise (A : Type) := mkPromise {
  promise_installs : option Hook;
  promise_result : option A
}.
Arguments mkPromise {A}.
Arguments promise_installs {A}.
Arguments promise_result {A}.

(** The caller's [(context) => AsyncGenerator<Action>] as a machine: asked
    for its next element while its context's flag reads [c], it returns
    ([None]) or delivers an element and moves on. *)
Record Generator (A : Type) := mkGenerator {
  gen_state : Type;
  gen_installs : option Hook;
  gen_start : gen_state;
  gen_next : gen_state → bool → option (A * gen_state)
}.
Arguments mkGenerator {A}.
Arguments gen_state {A}.
Arguments gen_installs {A}.
Arguments gen_start {A}.
Arguments gen_next {A}.

Inductive EffectNode (A : Type) : Type :=
| NCancelScope (scope : list string)
| NCancelId (id : string)
| NAction (value : A)
| NPromise (id : option string) (value : Promise A)
| NGenerator (id : option string) (value : Generator A).
Arguments NCancelScope {A}.
Arguments NCancelId {A}.
Arguments NAction {A}.
Arguments NPromise {A}.
Arguments NGenerator {A}.

Definition mapEffectNode {A B} (node : EffectNode A) (transform : A → B)
  : EffectNode B :=
  match node with
  | NCancelScope s => NCancelScope s
  | NCancelId i => NCancelId i
  | NAction v => NAction (transform v)
  | NPromise i p =>
      NPromise i (mkPromise (promise_installs p) (transform <$> promise_result p))
  | NGenerator i g =>
      NGenerator i
        (mkGenerator (gen_state g) (gen_installs g) (gen_start g)
           (λ s cancelled,
              match gen_next g s cancelled with
              | None => None
              | Some (output, s') =>
                  if cancelled then None else Some (transform output, s')
              end))
  end.

Inductive Effect (A : Type) : Type := mkEffect {
  node : option (EffectNode A);
  children : list (Effect A);
  scope : list string
}.
Arguments mkEffect {A}.
Arguments node {A}.
Arguments children {A}.
Arguments scope {A}.

Module Effect.
Section Effect.
Context {A : Type}.

(** [static none = new Effect<any>()] *)
Definition none : Effect A := mkEffect None [] [].

Definition cancelScope (scope : list string) : Effect A :=
  mkEffect (Some (NCancelScope scope)) [] [].

Definition cancelId (id : string) : Effect A :=
  mkEffect (Some (NCancelId id)) [] [].

(** [draft.scope.unshift(scope)] *)
Definition cancellationScope (e : Effect A) (segment : string) : Effect A :=
  mkEffect (node e) (children e) (segment :: scope e).

(** The getter first tests [this === Effect.none]; that object has no node
    and no children, so the structural test below gives it the same
    answer. *)
Fixpoint isEmpty (e : Effect A) : bool :=
  match node e with
  | Some _ => false
  | None =>
      (fix all_empty (cs : list (Effect A)) : bool :=
         match cs with
         | [] => true
         | child :: cs' => if negb (isEmpty child) then false else all_empty cs'
         end) (children e)
  end.

Definition merge (effects : list (Effect A)) : Effect A :=
  let nonEmptyEffects := filter (λ x, negb (isEmpty x)) effects in
  match nonEmptyEffects with
  | [] => none
  | [x] => x
  | _ => mkEffect None nonEmptyEffects []
  end.
End Effect.

(** [map] starts from [new Effect()], sets [node] and [children] and leaves
    [scope] at its initial []. *)
Fixpoint map {A B} (e : Effect A) (transform : A → B) : Effect B :=
  mkEffect
    (match node e with
     | Some n => Some (mapEffectNode n transform)
     | None => None
     end)
    ((fix map_children (cs : list (Effect A)) : list (Effect B) :=
        match cs with
        | [] => []
        | x :: cs' => map x transform :: map_children cs'
        end) (children e))
    [].
End Effect.

(* ================================================================== *)
(** ** Effect.ts: resolution *)

(** The body of the closure [start] built by [resolveEffectNode]: it awaits
    the promise, or iterates the generator. *)
Inductive Start (A : Type) : Type :=
| StartPromise (value : Promise A)
| StartGenerator (value : Generator A).
Arguments StartPromise {A}.
Arguments StartGenerator {A}.

Inductive ResolvedEffect (A : Type) : Type :=
| RCancelScope (scope : list string)
| RCancelId (id : string)
| RAction (value : A)
| RLongRunning (id : option string) (scope : list string)
    (context : CtxRef) (start : Start A).
Arguments RCancelScope {A}.
Arguments RCancelId {A}.
Arguments RAction {A}.
Arguments RLongRunning {A}.

(** [if (effectNode.id) retval.id = effectNode.id]: an absent or empty id
    leaves the unit without id. *)
Definition resolved_id (id : option string) : option string :=
  match id with
  | Some i => if truthy i then Some i else None
  | None => None
  end.

Definition resolveEffectNode {A} (effectNode : EffectNode A)
    (scope : list string) (m : Mem) : ResolvedEffect A * Mem :=
  match effectNode with
  | NCancelScope s => (RCancelScope (scope ++ s), m)
  | NCancelId i => (RCancelId i, m)
  | NAction v => (RAction v, m)
  | NPromise i p =>
      let '(context, m') := alloc m in
      (RLongRunning (resolved_id i) scope context (StartPromise p), m')
  | NGenerator i g =>
      let '(context, m') := alloc m in
      (RLongRunning (resolved_id i) scope context (StartGenerator g), m')
  end.

Fixpoint resolveEffect {A} (effect : Effect A) (scope0 : list string) (m : Mem)
  : list (ResolvedEffect A) * Mem :=
  if Effect.isEmpty effect then ([], m)
  else
    let scope := scope0 ++ scope effect in
    let '(units, m) :=
      match node effect with
      | Some n => let '(r, m') := resolveEffectNode n scope m in ([r], m')
      | None => ([], m)
      end in
    (fix each_child (cs : list (Effect A)) (units : list (ResolvedEffect A))
         (m : Mem) : list (ResolvedEffect A) * Mem :=
       match cs with
       | [] => (units, m)
       | child :: cs' =>
           let '(rs, m') := resolveEffect child scope m in
           each_child cs' (units ++ rs) m'
       end) (children effect) units m.

(** *** Running a [start] closure

    The sequence made by [start()] is consumed one step at a time. A step
    asks the producer for its next element and reads the context's flag. *)
Inductive Running (A : Type) : Type :=
| AwaitingPromise (result : option A)
| Iterating (g : Generator A) (s : gen_state g)
| Finished.
Arguments AwaitingPromise {A}.
Arguments Iterating {A}.
Arguments Finished {A}.

Definition launch {A} (start : Start A) : Running A :=
  match start with
  | StartPromise p => AwaitingPromise (promise_result p)
  | StartGenerator g => Iterating g (gen_start g)
  end.

Definition start_installs {A} (start : Start A) : option Hook :=
  match start with
  | StartPromise p => promise_installs p
  | StartGenerator g => gen_installs g
  end.

(** One step: the element yielded to the consumer, if any, and what is left
    to run. *)
Definition pull {A} (r : Running A) (cancelled : bool) : option A * Running A :=
  match r with
  | AwaitingPromise None => (None, AwaitingPromise None)
  | AwaitingPromise (Some result) =>
      if negb cancelled then (Some result, Finished) else (None, Finished)
  | Iterating g s =>
      match gen_next g s cancelled with
      | None => (None, Finished)
      | Some (result, s') =>
          if negb cancelled then (Some result, Iterating g s')
          else (None, Iterating g s')
      end
  | Finished => (None, Finished)
  end.

(* ================================================================== *)
(** ** Effect.ts: EffectContextTree *)

Inductive EffectContextTree : Type := mkTree {
  tcontexts : list CtxRef;
  tchildren : option (list (string * EffectContextTree))
}.

(** [new EffectContextTree()] *)
Definition new_EffectContextTree : EffectContextTree := mkTree [] None.

Module EffectContextTree.

(** The loop over [this.contexts] iterates the array it started with;
    [this.contexts = []] inside the loop only rebinds the field. *)
Fixpoint cancelSelf (t : EffectContextTree) (m : Mem) : EffectContextTree * Mem :=
  let m1 := foldl (λ m context, cancel_ref context m) m (tcontexts t) in
  let contexts1 := match tcontexts t with [] => tcontexts t | _ :: _ => [] end in
  match tchildren t with
  | None => (mkTree contexts1 None, m1)
  | Some cs =>
      let m2 :=
        (fix each_child (cs : list (string * EffectContextTree)) (m : Mem) : Mem :=
           match cs with
           | [] => m
           | (_, child) :: cs' => each_child cs' (cancelSelf child m).2
           end) cs m1 in
      (mkTree contexts1 None, m2)
  end.

Fixpoint cancel (scope : list string) (t : EffectContextTree) (m : Mem)
  : EffectContextTree * Mem :=
  match scope with
  | [] => cancelSelf t m
  | head :: rest =>
      match tchildren t with
      | None => (t, m)
      | Some cs =>
          match JsMap.get head cs with
          | None => (t, m)
          | Some child =>
              let '(child', m') := cancel rest child m in
              let cs' := JsMap.set head child' cs in
              match rest with
              | [] => (mkTree (tcontexts t) (Some (JsMap.delete head cs')), m')
              | _ :: _ => (mkTree (tcontexts t) (Some cs'), m')
              end
          end
      end
  end.

Fixpoint add (context : CtxRef) (scope : list string) (m : Mem)
    (t : EffectContextTree) : EffectContextTree :=
  if is_cancelled m context then t
  else
    match scope with
    | [] => mkTree (tcontexts t ++ [context]) (tchildren t)
    | head :: rest =>
        let cs := default [] (tchildren t) in
        let child := default new_EffectContextTree (JsMap.get head cs) in
        mkTree (tcontexts t) (Some (JsMap.set head (add context rest m child) cs))
    end.

End EffectContextTree.

(* ================================================================== *)
(** ** PropertyPath.ts *)

Record KeyPath (Root Value : Type) := mkKeyPath {
  get : Root → Value;
  set : Root → Value → Root
}.
Arguments mkKeyPath {Root Value}.
Arguments get {Root Value}.
Arguments set {Root Value}.

Record CasePath (Root Value : Type) := mkCasePath {
  extract : Root → option Value;
  embed : Value → Root
}.
Arguments mkCasePath {Root Value}.
Arguments extract {Root Value}.
Arguments embed {Root Value}.

Record WithKindValue (V : Type) := mkKindValue {
  kind : string;
  value : V
}.
Arguments mkKindValue {V}.
Arguments kind {V}.
Arguments value {V}.

(** An object is truthy whatever it holds. *)
#[export] Instance WithKindValue_truthy {V} : Truthy (WithKindValue V) := λ _, true.

Definition casePath {V} (k : string) : CasePath (WithKindValue V) V :=
  mkCasePath
    (λ root, if String.eqb (kind root) k then Some (value root) else None)
    (λ v, mkKindValue k v).

(** What [if (!x) return ...] lets through: a value that is there and
    truthy. *)
Definition present {A} `{Truthy A} (x : option A) : option A :=
  match x with
  | Some v => if truthy v then Some v else None
  | None => None
  end.

(* ================================================================== *)
(** ** DependencyValues.ts

    The bag is keyed by symbols, modelled as positive numbers. Its values
    have type [any] in the source; no reducer of the core reads them, and
    they are kept as strings. *)

Definition DependencyValuesStorage : Type := gmap positive string.

Record DependencyValues := mkDependencyValues {
  storage : DependencyValuesStorage
}.

Definition new_DependencyValues : DependencyValues := mkDependencyValues ∅.

Definition mutating (self : DependencyValues)
    (body : DependencyValuesStorage → DependencyValuesStorage) : DependencyValues :=
  mkDependencyValues (body (storage self)).

(* ================================================================== *)
(** ** Reducer.ts *)

(** A [BasicReducer] mutates a draft and returns an effect; [run] wraps it in
    [produce]. Its model is the function from the state before to the
    committed state and the effect. *)
Inductive Reducer (State Action : Type) : Type :=
| ComposedReducer (body : Reducer State Action)
| BasicReducer
    (reduce : State → Action → DependencyValues → State * Effect Action)
| PrimitiveReducer
    (_reduce : State → Action → DependencyValues → State * Effect Action).
Arguments ComposedReducer {State Action}.
Arguments BasicReducer {State Action}.
Arguments PrimitiveReducer {State Action}.

Fixpoint run {State Action} (reducer : Reducer State Action) (state : State)
    (action : Action) (dependencies : DependencyValues) : State * Effect Action :=
  match reducer with
  | ComposedReducer body => run body state action dependencies
  | PrimitiveReducer _reduce => _reduce state action dependencies
  | BasicReducer reduce => reduce state action dependencies
  end.

Module EmptyReducer.
Definition _reduce {State Action} (state : State) (action : Action)
    (dependencies : DependencyValues) : State * Effect Action :=
  (state, Effect.none).
End EmptyReducer.

(** *** Scope *)

Record Scope (ParentState ParentAction LocalState LocalAction : Type) := mkScope {
  scope_state : KeyPath ParentState LocalState + CasePath ParentState LocalState;
  scope_action : CasePath ParentAction LocalAction;
  scope_child : Reducer LocalState LocalAction
}.
Arguments mkScope {ParentState ParentAction LocalState LocalAction}.
Arguments scope_state {ParentState ParentAction LocalState LocalAction}.
Arguments scope_action {ParentState ParentAction LocalState LocalAction}.
Arguments scope_child {ParentState ParentAction LocalState LocalAction}.

Module Scope.
Section Scope.
Context {ParentState ParentAction LocalState LocalAction : Type}.
Context `{Truthy LocalState, Truthy LocalAction}.

Definition _reduce (self : Scope ParentState ParentAction LocalState LocalAction)
    (state : ParentState) (action : ParentAction)
    (dependencies : DependencyValues) : ParentState * Effect ParentAction :=
  match scope_state self with
  | inl keyPath =>
      match present (extract (scope_action self) action) with
      | None => (state, Effect.none)
      | Some childAction =>
          let '(childState, childEffect) :=
            run (scope_child self) (get keyPath state) childAction dependencies in
          let newState := set keyPath state childState in
          (newState, Effect.map childEffect (λ x, embed (scope_action self) x))
      end
  | inr casePath =>
      match present (extract casePath state),
            present (extract (scope_action self) action) with
      | Some childState, Some childAction =>
          let '(newChildState, childEffect) :=
            run (scope_child self) childState childAction dependencies in
          (embed casePath newChildState,
           Effect.map childEffect (λ x, embed (scope_action self) x))
      | _, _ => (state, Effect.none)
      end
  end.

Definition reducer (self : Scope ParentState ParentAction LocalState LocalAction)
  : Reducer ParentState ParentAction :=
  PrimitiveReducer (_reduce self).
End Scope.
End Scope.

(** *** CombineReducers *)

Module CombineReducers.
Section CombineReducers.
Context {State Action : Type}.

(** The loop keeps the current [state] and the array [effects]. *)
Definition _reduce (reducers : list (Reducer State Action)) (state : State)
    (action : Action) (dependencies : DependencyValues) : State * Effect Action :=
  let '(state, effects) :=
    foldl
      (λ '(state, effects) reducer,
         let '(newState, newEffect) := run reducer state action dependencies in
         (newState, effects ++ [newEffect]))
      (state, []) reducers in
  (state, Effect.merge effects).

Definition reducer (reducers : list (Reducer State Action)) : Reducer State Action :=
  PrimitiveReducer (_reduce reducers).
End CombineReducers.
End CombineReducers.

(** *** Conditional mounting: [_IfLetReducer] and [_IfCaseLetReducer] *)

Record _IfLetReducer (State Action ChildState ChildAction : Type) := mkIfLet {
  iflet_parent : Reducer State Action;
  iflet_child : Reducer ChildState ChildAction;
  iflet_state : KeyPath State (option ChildState);
  iflet_action : CasePath Action ChildAction;
  iflet_id : ChildState → string
}.
Arguments mkIfLet {State Action ChildState ChildAction}.
Arguments iflet_parent {State Action ChildState ChildAction}.
Arguments iflet_child {State Action ChildState ChildAction}.
Arguments iflet_state {State Action ChildState ChildAction}.
Arguments iflet_action {State Action ChildState ChildAction}.
Arguments iflet_id {State Action ChildState ChildAction}.

Record _IfCaseLetReducer (State Action ChildState ChildAction : Type) := mkIfCaseLet {
  ifcase_parent : Reducer State Action;
  ifcase_child : Reducer ChildState ChildAction;
  ifcase_state : CasePath State ChildState;
  ifcase_action : CasePath Action ChildAction;
  ifcase_id : ChildState → string
}.
Arguments mkIfCaseLet {State Action ChildState ChildAction}.
Arguments ifcase_parent {State Action ChildState ChildAction}.
Arguments ifcase_child {State Action ChildState ChildAction}.
Arguments ifcase_state {State Action ChildState ChildAction}.
Arguments ifcase_action {State Action ChildState ChildAction}.
Arguments ifcase_id {State Action ChildState ChildAction}.

(** [oldChildId != newChildId && oldChildId !== null] on [string | null] *)
Definition id_changed (oldChildId newChildId : option string) : bool :=
  negb (bool_decide (oldChildId = newChildId)) && negb (bool_decide (oldChildId = None)).

Module _IfLetReducer.
Section IfLet.
Context {State Action ChildState ChildAction : Type}.
Context `{Truthy ChildState, Truthy ChildAction}.
Implicit Type self : _IfLetReducer State Action ChildState ChildAction.

Definition getChildId self (state : State) : option string :=
  match present (get (iflet_state self) state) with
  | Some childState => Some (iflet_id self childState)
  | None => None
  end.

(** [newEffect] is built and never used: the pair returned carries the
    mapped effect without the scope. *)
Definition reduceChild self (state : State) (action : Action)
    (dependencies : DependencyValues) : State * Effect Action :=
  match present (extract (iflet_action self) action) with
  | None => (state, Effect.none)
  | Some childAction =>
      match present (get (iflet_state self) state) with
      | None => (state, Effect.none)
      | Some childState =>
          let '(newChildState, childEffect) :=
            run (iflet_child self) childState childAction dependencies in
          let newState := set (iflet_state self) state (Some newChildState) in
          let newEffect :=
            Effect.cancellationScope
              (Effect.map childEffect (λ x, embed (iflet_action self) x))
              (iflet_id self newChildState) in
          (newState, Effect.map childEffect (λ x, embed (iflet_action self) x))
      end
  end.

(** When [reduceChild] calls [console.warn]: the action is for the child and
    the slot is empty. *)
Definition reduceChild_warns self (state : State) (action : Action) : bool :=
  match present (extract (iflet_action self) action) with
  | None => false
  | Some _ =>
      match present (get (iflet_state self) state) with
      | None => true
      | Some _ => false
      end
  end.

Definition _reduce self (state : State) (action : Action)
    (dependencies : DependencyValues) : State * Effect Action :=
  let effects : list (Effect Action) := [] in
  let pair := reduceChild self state action dependencies in
  let state := pair.1 in
  let effects := effects ++ [pair.2] in
  let oldChildId := getChildId self state in
  let pair := run (iflet_parent self) state action dependencies in
  let state := pair.1 in
  let effects := effects ++ [pair.2] in
  let newChildId := getChildId self state in
  let effects :=
    match oldChildId with
    | Some old =>
        if id_changed oldChildId newChildId
        then effects ++ [Effect.cancelScope [old]]
        else effects
    | None => effects
    end in
  (state, Effect.merge effects).

Definition reducer self : Reducer State Action := PrimitiveReducer (_reduce self).
End IfLet.
End _IfLetReducer.

Module _IfCaseLetReducer.
Section IfCaseLet.
Context {State Action ChildState ChildAction : Type}.
Context `{Truthy ChildState, Truthy ChildAction}.
Implicit Type self : _IfCaseLetReducer State Action ChildState ChildAction.

Definition getChildId self (state : State) : option string :=
  match present (extract (ifcase_state self) state) with
  | Some childState => Some (ifcase_id self childState)
  | None => None
  end.

Definition reduceChild self (state : State) (action : Action)
    (dependencies : DependencyValues) : State * Effect Action :=
  match present (extract (ifcase_action self) action) with
  | None => (state, Effect.none)
  | Some childAction =>
      match present (extract (ifcase_state self) state) with
      | None => (state, Effect.none)
      | Some childState =>
          let '(newChildState, childEffect) :=
            run (ifcase_child self) childState childAction dependencies in
          let newState := embed (ifcase_state self) newChildState in
          let newEffect :=
            Effect.cancellationScope
              (Effect.map childEffect (λ x, embed (ifcase_action self) x))
              (ifcase_id self newChildState) in
          (newState, Effect.map childEffect (λ x, embed (ifcase_action self) x))
      end
  end.

Definition reduceChild_warns self (state : State) (action : Action) : bool :=
  match present (extract (ifcase_action self) action) with
  | None => false
  | Some _ =>
      match present (extract (ifcase_state self) state) with
      | None => true
      | Some _ => false
      end
  end.

Definition _reduce self (state : State) (action : Action)
    (dependencies : DependencyValues) : State * Effect Action :=
  let effects : list (Effect Action) := [] in
  let pair := reduceChild self state action dependencies in
  let state := pair.1 in
  let effects := effects ++ [pair.2] in
  let oldChildId := getChildId self state in
  let pair := run (ifcase_parent self) state action dependencies in
  let state := pair.1 in
  let effects := effects ++ [pair.2] in
  let newChildId := getChildId self state in
  let effects :=
    match oldChildId with
    | Some old =>
        if id_changed oldChildId newChildId
        then effects ++ [Effect.cancelScope [old]]
        else effects
    | None => effects
    end in
  (state, Effect.merge effects).

Definition reducer self : Reducer State Action := PrimitiveReducer (_reduce self).
End IfCaseLet.
End _IfCaseLetReducer.

(** *** ChainReducer *)

Module ChainReducer.
Section ChainReducer.
Context {State Action ChildState ChildAction : Type}.
Context `{Truthy ChildState, Truthy ChildAction}.

(** [new ChainReducer(body)] is the composed reducer around [body]. *)
Definition ifLet (body : Reducer State Action)
    (state : KeyPath State (option ChildState))
    (action : CasePath Action ChildAction) (id : ChildState → string)
    (child : Reducer ChildState ChildAction) : Reducer State Action :=
  let raw := _IfLetReducer.reducer (mkIfLet body child state action id) in
  ComposedReducer raw.

Definition ifCaseLet (body : Reducer State Action)
    (state : CasePath State ChildState)
    (action : CasePath Action ChildAction) (id : ChildState → string)
    (child : Reducer ChildState ChildAction) : Reducer State Action :=
  let raw := _IfCaseLetReducer.reducer (mkIfCaseLet body child state action id) in
  ComposedReducer raw.
End ChainReducer.
End ChainReducer.

(** *** _DependencySettingReducer *)

Module _DependencySettingReducer.
Definition _reduce {State Action} (wrapped : Reducer State Action)
    (updateDependencies : DependencyValuesStorage → DependencyValuesStorage)
    (state : State) (action : Action) (dependencies : DependencyValues)
  : State * Effect Action :=
  let updated := mutating dependencies updateDependencies in
  run wrapped state action updated.
End _DependencySettingReducer.

(* ================================================================== *)
(** ** Store.ts: RootStore

    A subscriber callback is opaque: it is named, and calling it with a
    state is logged in [notified]. A launched [task] sits in [tasks] until
    the event loop resumes it ([deliver]). *)

Definition Callback := string.

Record Task (Action : Type) := mkTask {
  task_context : CtxRef;
  task_running : Running Action
}.
Arguments mkTask {Action}.
Arguments task_context {Action}.
Arguments task_running {Action}.

Record RootStore (State Action : Type) := mkRootStore {
  state : State;
  reducer : Reducer State Action;
  namedEffects : gmap string CtxRef;
  effectTree : EffectContextTree;
  callbacks : list (string * Callback);
  (* the world around the store *)
  mem : Mem;
  tasks : list (Task Action);
  notified : list (Callback * State)
}.
Arguments mkRootStore {State Action}.
Arguments state {State Action}.
Arguments reducer {State Action}.
Arguments namedEffects {State Action}.
Arguments effectTree {State Action}.
Arguments callbacks {State Action}.
Arguments mem {State Action}.
Arguments tasks {State Action}.
Arguments notified {State Action}.

Module RootStore.
Section RootStore.
Context {State Action : Type}.
Context `{StrictEq State, Truthy Action}.
Implicit Type self : RootStore State Action.

(** [constructor(initialState, reducer)] *)
Definition new (initialState : State) (reducer : Reducer State Action)
  : RootStore State Action :=
  mkRootStore initialState reducer ∅ new_EffectContextTree [] empty_Mem [] [].

Definition with_state self (s : State) : RootStore State Action :=
  mkRootStore s (reducer self) (namedEffects self) (effectTree self)
    (callbacks self) (mem self) (tasks self) (notified self).

Definition with_mem self (m : Mem) : RootStore State Action :=
  mkRootStore (state self) (reducer self) (namedEffects self) (effectTree self)
    (callbacks self) m (tasks self) (notified self).

Definition with_tree self (t : EffectContextTree) (m : Mem) : RootStore State Action :=
  mkRootStore (state self) (reducer self) (namedEffects self) t
    (callbacks self) m (tasks self) (notified self).

Definition with_callbacks self (cbs : list (string * Callback)) : RootStore State Action :=
  mkRootStore (state self) (reducer self) (namedEffects self) (effectTree self)
    cbs (mem self) (tasks self) (notified self).

Definition with_tasks self (ts : list (Task Action)) : RootStore State Action :=
  mkRootStore (state self) (reducer self) (namedEffects self) (effectTree self)
    (callbacks self) (mem self) ts (notified self).

Definition with_notified self (n : list (Callback * State)) : RootStore State Action :=
  mkRootStore (state self) (reducer self) (namedEffects self) (effectTree self)
    (callbacks self) (mem self) (tasks self) n.

(** [this.namedEffects.get(id)?.cancel()] *)
Definition cancel_named self (id : string) : Mem :=
  match namedEffects self !! id with
  | Some context => cancel_ref context (mem self)
  | None => mem self
  end.

(** [task()] runs up to its first suspension: the producer is called with
    the context and may install its cleanup hook; the elements come later. *)
Definition processResolvedEffect (x : ResolvedEffect Action)
    (pendingActions : list Action) self : list Action * RootStore State Action :=
  match x with
  | RCancelScope scope =>
      let '(t, m) := EffectContextTree.cancel scope (effectTree self) (mem self) in
      (pendingActions, with_tree self t m)
  | RCancelId id =>
      (pendingActions, with_mem self (cancel_named self id))
  | RAction value =>
      (pendingActions ++ [value], self)
  | RLongRunning id scope context start =>
      let m :=
        match present id with
        | Some i => cancel_named self i
        | None => mem self
        end in
      let t := EffectContextTree.add context scope m (effectTree self) in
      let m := set_hook context (start_installs start) m in
      (pendingActions,
       with_tasks (with_tree self t m) (tasks self ++ [mkTask context (launch start)]))
  end.

Definition processAction (action : Action) (pendingActions : list Action) self
  : list Action * RootStore State Action :=
  let '(newState, effect) :=
    run (reducer self) (state self) action new_DependencyValues in
  let self := with_state self newState in
  let '(units, m) := resolveEffect effect [] (mem self) in
  let self := with_mem self m in
  foldl (λ '(pendingActions, self) x, processResolvedEffect x pendingActions self)
    (pendingActions, self) units.

(** The loop [while (true)] of [send]. It need not end: [fuel] bounds the
    number of actions processed, and [None] means the bound was hit. The
    loop also stops at a falsy action ([if (!next) break]). *)
Fixpoint drain (fuel : nat) (pendingActions : list Action) self
  : option (RootStore State Action) :=
  match pendingActions with
  | [] => Some self
  | next :: pendingActions =>
      if negb (truthy next) then Some self
      else
        match fuel with
        | O => None
        | S fuel' =>
            let '(pendingActions, self) := processAction next pendingActions self in
            drain fuel' pendingActions self
        end
  end.

Definition notify self : RootStore State Action :=
  with_notified self
    (notified self ++ ((λ '(_, callback), (callback, state self)) <$> callbacks self)).

Definition send (fuel : nat) (action : Action) self : option (RootStore State Action) :=
  let oldState := state self in
  match drain fuel [action] self with
  | None => None
  | Some self =>
      if strict_eq oldState (state self) then Some self
      else Some (notify self)
  end.

Definition subscribe (id : string) (callback : Callback) self : RootStore State Action :=
  with_callbacks self (JsMap.set id callback (callbacks self)).

Definition unsubscribe (id : string) self : RootStore State Action :=
  with_callbacks self (JsMap.delete id (callbacks self)).

(** The event loop resumes the [i]-th task: one step of its [for await],
    and [this.send(action)] when the step yields. *)
Definition deliver (fuel : nat) (i : nat) self : option (RootStore State Action) :=
  match tasks self !! i with
  | None => Some self
  | Some task =>
      let '(yielded, running) :=
        pull (task_running task) (is_cancelled (mem self) (task_context task)) in
      let self := with_tasks self (<[i := mkTask (task_context task) running]> (tasks self)) in
      match yielded with
      | Some action => send fuel action self
      | None => Some self
      end
  end.
End RootStore.
End RootStore.

(* ================================================================== *)
(** ** Store.ts: ScopedStore

    A scoped store refers to its root store; here the root is passed to each
    operation. [scoped_id] is the uuid drawn at construction. *)

(** Whether a value of the type is JavaScript's [null]. *)
Class Nullish (A : Type) := is_null : A → bool.
Global Hint Mode Nullish ! : typeclass_instances.

#[export] Instance Z_nullish : Nullish Z := λ _, false.
#[export] Instance string_nullish : Nullish string := λ _, false.
#[export] Instance option_nullish {A} : Nullish (option A) :=
  λ o, match o with Some _ => false | None => true end.

Record ScopedStore (State Action LocalState LocalAction : Type) := mkScopedStore {
  toLocalState : State → LocalState;
  fromLocalAction : LocalAction → Action;
  scoped_id : string
}.
Arguments mkScopedStore {State Action LocalState LocalAction}.
Arguments toLocalState {State Action LocalState LocalAction}.
Arguments fromLocalAction {State Action LocalState LocalAction}.
Arguments scoped_id {State Action LocalState LocalAction}.

Definition RootStore_state {State Action} (root : RootStore State Action) : State :=
  state root.

Module ScopedStore.
Section ScopedStore.
Context {State Action LocalState LocalAction : Type}.
Context `{StrictEq State, Truthy Action, StrictEq LocalState, Nullish LocalState}.
Implicit Type self : ScopedStore State Action LocalState LocalAction.

(** [get state()] *)
Definition state self (root : RootStore State Action) : LocalState :=
  toLocalState self (RootStore_state root).

Definition send (fuel : nat) (action : LocalAction) self
    (root : RootStore State Action) : option (RootStore State Action) :=
  RootStore.send fuel (fromLocalAction self action) root.

(** The key [`${this.id}/${id}`] *)
Definition listener_key self (id : string) : string :=
  String.append (scoped_id self) (String.append "/" id).

(** [newState === lastState], with [lastState] possibly [null] *)
Definition same_as_last (newState : LocalState) (lastState : option LocalState) : bool :=
  match lastState with
  | Some l => strict_eq newState l
  | None => is_null newState
  end.

(** The closure that [subscribe] registers with the root, as a machine over
    its captured [lastState]: called with a root state, it returns the new
    [lastState] and the local state it passes to [callback], if any. *)
Definition listener self (lastState : option LocalState) (x : State)
  : option LocalState * option LocalState :=
  let newState := toLocalState self x in
  if same_as_last newState lastState then (lastState, None)
  else (Some newState, Some newState).

(** What is registered with the root under the key is the listener around
    [callback]; the root's log names it by [callback]. *)
Definition subscribe (id : string) (callback : Callback) self
    (root : RootStore State Action) : RootStore State Action :=
  RootStore.subscribe (listener_key self id) callback root.

Definition unsubscribe (id : string) self (root : RootStore State Action)
  : RootStore State Action :=
  RootStore.unsubscribe (listener_key self id) root.

(** What the listener passes on when the root calls it with the states
    [xs], one after the other. *)
Fixpoint delivered self (lastState : option LocalState) (xs : list State)
  : list LocalState :=
  match xs with
  | [] => []
  | x :: xs' =>
      let '(lastState', d) := listener self lastState x in
      option_list d ++ delivered self lastState' xs'
  end.

(** No element of [ds] is [===] to the one before it, [lastState] standing
    before the first. *)
Fixpoint no_repeat (lastState : option LocalState) (ds : list LocalState) : bool :=
  match ds with
  | [] => true
  | d :: ds' => negb (same_as_last d lastState) && no_repeat (Some d) ds'
  end.
End ScopedStore.
End ScopedStore.

(* ================================================================== *)
(** ** Vocabulary of the properties *)

(** The nodes of an effect in pre-order, each with the scope accumulated on
    the way down to it. *)
Fixpoint nodes_preorder {A} (e : Effect A) (parentScope : list string)
  : list (EffectNode A * list string) :=
  let scope := parentScope ++ scope e in
  match node e with
  | Some n => [(n, scope)]
  | None => []
  end ++
  (fix each (cs : list (Effect A)) : list (EffectNode A * list string) :=
     match cs with
     | [] => []
     | c :: cs' => nodes_preorder c scope ++ each cs'
     end) (children e).

(** Resolving a list of nodes one after the other. *)
Fixpoint resolve_nodes {A} (ns : list (EffectNode A * list string)) (m : Mem)
  : list (ResolvedEffect A) * Mem :=
  match ns with
  | [] => ([], m)
  | (n, scope) :: ns' =>
      let '(r, m1) := resolveEffectNode n scope m in
      let '(rs, m2) := resolve_nodes ns' m1 in
      (r :: rs, m2)
  end.

(** Resolving a list of effects under one scope, results concatenated in
    the order of the list. *)
Fixpoint resolve_all {A} (es : list (Effect A)) (scope : list string) (m : Mem)
  : list (ResolvedEffect A) * Mem :=
  match es with
  | [] => ([], m)
  | e :: es' =>
      let '(rs, m1) := resolveEffect e scope m in
      let '(rss, m2) := resolve_all es' scope m1 in
      (rs ++ rss, m2)
  end.

Definition resolve_own {A} (n : option (EffectNode A)) (scope : list string)
    (m : Mem) : list (ResolvedEffect A) * Mem :=
  match n with
  | Some n => let '(r, m') := resolveEffectNode n scope m in ([r], m')
  | None => ([], m)
  end.

(** The shape of an effect: which kind of node sits where. *)
Inductive NodeKind := KCancelScope | KCancelId | KAction | KPromise | KGenerator.

Definition node_kind {A} (n : EffectNode A) : NodeKind :=
  match n with
  | NCancelScope _ => KCancelScope
  | NCancelId _ => KCancelId
  | NAction _ => KAction
  | NPromise _ _ => KPromise
  | NGenerator _ _ => KGenerator
  end.

Inductive Shape := mkShape (k : option NodeKind) (children : list Shape).

Fixpoint shape {A} (e : Effect A) : Shape :=
  mkShape (node_kind <$> node e)
    ((fix each (cs : list (Effect A)) : list Shape :=
        match cs with
        | [] => []
        | c :: cs' => shape c :: each cs'
        end) (children e)).

Definition action_value {A} (r : ResolvedEffect A) : option A :=
  match r with
  | RAction v => Some v
  | _ => None
  end.

(** The values of the action units of a resolved list, in order. *)
Definition action_values {A} (rs : list (ResolvedEffect A)) : list A :=
  omap action_value rs.

Definition cancel_scopes {A} (rs : list (ResolvedEffect A)) : list (list string) :=
  omap (λ r, match r with RCancelScope s => Some s | _ => None end) rs.

(** The scopes under which the long-running units of a list register. *)
Definition long_running_scopes {A} (rs : list (ResolvedEffect A)) : list (list string) :=
  omap (λ r, match r with RLongRunning _ s _ _ => Some s | _ => None end) rs.

(** *** A context and its consumer over time *)

Inductive Event := Cancel | Pull.

(** What a run of events produces from a running [start]: the elements
    yielded, the hooks invoked, and the context at the end. *)
Fixpoint consume {A} (evs : list Event) (c : EffectContext) (r : Running A)
  : list A * list Hook * EffectContext :=
  match evs with
  | [] => ([], [], c)
  | Cancel :: evs' =>
      let '(c', hs) := EffectContext.cancel c in
      let '(ys, hs', c'') := consume evs' c' r in
      (ys, hs ++ hs', c'')
  | Pull :: evs' =>
      let '(y, r') := pull r (isCancelled c) in
      let '(ys, hs, c'') := consume evs' c r' in
      (option_list y ++ ys, hs, c'')
  end.

Definition has_cancel (evs : list Event) : bool :=
  existsb (λ e, match e with Cancel => true | Pull => false end) evs.

(** *** Sibling reducers *)

Definition state_after {State Action} (reducers : list (Reducer State Action))
    (state : State) (action : Action) (d : DependencyValues) : State :=
  foldl (λ s r, (run r s action d).1) state reducers.

(** The effect each sibling returns, the [i]-th one run on the state left by
    the [i] siblings before it. *)
Definition sibling_effects {State Action} (reducers : list (Reducer State Action))
    (state : State) (action : Action) (d : DependencyValues) : list (Effect Action) :=
  imap (λ i r, (run r (state_after (take i reducers) state action d) action d).2)
    reducers.

(** *** Conditional mounting *)

(** The teardown owed when the identity of the child went from [prior] to
    [current]: a cancel-scope for the prior identity when there was one and
    it changed. *)
Definition teardown {A} (prior current : option string) : list (Effect A) :=
  match prior with
  | Some x => if decide (Some x = current) then [] else [Effect.cancelScope [x]]
  | None => []
  end.

(** *** Context trees *)

Fixpoint all_contexts (t : EffectContextTree) : list CtxRef :=
  tcontexts t ++
  match tchildren t with
  | None => []
  | Some cs =>
      (fix each (cs : list (string * EffectContextTree)) : list CtxRef :=
         match cs with
         | [] => []
         | (_, c) :: cs' => all_contexts c ++ each cs'
         end) cs
  end.

Definition subtree (segment : string) (t : EffectContextTree) : option EffectContextTree :=
  match tchildren t with
  | None => None
  | Some cs => JsMap.get segment cs
  end.

(** The contexts registered at or below a segment of the root. *)
Definition contexts_below (segment : string) (t : EffectContextTree) : list CtxRef :=
  match subtree segment t with
  | Some c => all_contexts c
  | None => []
  end.

(** The contexts registered at the node a path leads to. *)
Fixpoint contexts_at (path : list string) (t : EffectContextTree) : list CtxRef :=
  match path with
  | [] => tcontexts t
  | segment :: rest =>
      match subtree segment t with
      | Some c => contexts_at rest c
      | None => []
      end
  end.

Definition allocated (m : Mem) (r : CtxRef) : bool :=
  bool_decide (r < length (contexts m)).

(** An effect that carries no scope of its own: its prefix is empty, it is
    not the result of [cancellationScope], and its long-running units
    register at the scope the resolution starts from. *)
Definition unscoped {A} (e : Effect A) : Prop :=
  scope e = []
  ∧ (∀ e' seg, e ≠ Effect.cancellationScope e' seg)
  ∧ ∀ ps m, Forall (λ sc, sc = ps) (long_running_scopes (resolveEffect e ps m).1).

(** *** More vocabulary: contexts of resolved units, starts, paths *)

Definition is_long_running {A} (n : EffectNode A) : bool :=
  match n with
  | NPromise _ _ | NGenerator _ _ => true
  | _ => false
  end.

(** How many single-shot and multi-shot nodes an effect holds. *)
Definition count_long_running {A} (e : Effect A) : nat :=
  length (filter (λ ns, is_long_running ns.1) (nodes_preorder e [])).

Definition long_running_contexts {A} (rs : list (ResolvedEffect A)) : list CtxRef :=
  omap (λ r, match r with RLongRunning _ _ c _ => Some c | _ => None end) rs.

Definition start_of {A} (r : ResolvedEffect A) : option (Start A) :=
  match r with
  | RLongRunning _ _ _ start => Some start
  | _ => None
  end.

(** The elements a running sequence yields over a run of events. *)
Definition yields {A} (evs : list Event) (c : EffectContext) (r : Running A) : list A :=
  (consume evs c r).1.1.

(** The node of the tree a path leads to. *)
Fixpoint node_at (path : list string) (t : EffectContextTree) : option EffectContextTree :=
  match path with
  | [] => Some t
  | segment :: rest =>
      match subtree segment t with
      | Some c => node_at rest c
      | None => None
      end
  end.

(** The contexts registered at or below the node a path leads to. *)
Definition contexts_under (path : list string) (t : EffectContextTree) : list CtxRef :=
  match node_at path t with
  | Some c => all_contexts c
  | None => []
  end.

(** A unit that brings a context brings one below the bound [n]. *)
Definition unit_allocated {Action} (n : nat) (x : ResolvedEffect Action) : Prop :=
  match x with
  | RLongRunning _ _ context _ => context < n
  | _ => True
  end.

(** Every context the store holds on to, in its tree or through a task, has
    been allocated. *)
Definition contexts_allocated {State Action} (self : RootStore State Action) : Prop :=
  Forall (λ r, r < length (contexts (mem self))) (all_contexts (effectTree self))
  ∧ Forall (λ t, task_context t < length (contexts (mem self))) (tasks self).

(* ================================================================== *)
(** ** Sample features *)

Module Samples.

(** A counter feature: state [{count}], one action kind per button. *)
Record CounterState := mkCounter { count : Z }.

Inductive CounterAction := incrementButtonTapped | decrementButtonTapped.

#[global] Instance CounterAction_truthy : Truthy CounterAction := λ _, true.

Definition counter : Reducer CounterState CounterAction :=
  BasicReducer (λ state action _,
    match action with
    | incrementButtonTapped => (mkCounter (count state + 1), Effect.none)
    | decrementButtonTapped => (mkCounter (count state - 1), Effect.none)
    end).

Definition two_counters : Reducer CounterState CounterAction :=
  CombineReducers.reducer [counter; counter].

(** A store whose state is a number; an action adds its value. *)
Definition adder : Reducer Z Z :=
  BasicReducer (λ state action _, ((state + action)%Z, Effect.none)).

Definition adder_store : RootStore Z Z :=
  RootStore.subscribe "b" "render-b"
    (RootStore.subscribe "a" "render-a" (RootStore.new 0%Z adder)).

(** [adder_store] once [5] has been sent and the subscribers told. *)
Definition adder_store_sent : RootStore Z Z :=
  RootStore.notify (RootStore.with_state adder_store 5%Z).

(** A sum state [{kind, value}] scoped onto its case ["loaded"]; the child
    counts the numbers it is sent. *)
Definition loaded_child : Reducer Z Z :=
  BasicReducer (λ state action _, ((state + action)%Z, Effect.none)).

Definition loaded_scope
  : Scope (WithKindValue Z) (WithKindValue Z) Z Z :=
  mkScope (inr (casePath "loaded")) (casePath "child") loaded_child.

(** A parent with an optional child slot. The child state is its own
    identity; the parent's action ["replace"] puts a new child in the slot. *)
Definition slot_path : KeyPath (option string) (option string) :=
  mkKeyPath (λ root, root) (λ _ v, v).

Definition slot_parent : Reducer (option string) (WithKindValue string) :=
  BasicReducer (λ state action _,
    if String.eqb (kind action) "replace"
    then (Some (value action), Effect.none)
    else (state, Effect.none)).

Definition slot_child : Reducer string string :=
  BasicReducer (λ state _ _, (state, Effect.none)).

Definition slot_feature : _IfLetReducer (option string) (WithKindValue string) string string :=
  mkIfLet slot_parent slot_child slot_path (casePath "child") (λ s, s).

Definition slot_case_path : CasePath (option string) string :=
  mkCasePath (λ root, root) Some.

Definition slot_case_feature
  : _IfCaseLetReducer (option string) (WithKindValue string) string string :=
  mkIfCaseLet slot_parent slot_child slot_case_path (casePath "child") (λ s, s).

(** A child that starts a stream on every action. *)
Definition ticks : Generator string :=
  mkGenerator nat (Some "stop-ticks") 0 (λ s _, Some ("tick", S s)).

Definition streaming_child : Reducer string string :=
  BasicReducer (λ state _ _,
    (state, mkEffect (Some (NGenerator None ticks)) [] [])).

Definition streaming_feature
  : _IfLetReducer (option string) (WithKindValue string) string string :=
  mkIfLet slot_parent streaming_child slot_path (casePath "child") (λ s, s).

Definition streaming_store : RootStore (option string) (WithKindValue string) :=
  RootStore.new (Some "x") (_IfLetReducer.reducer streaming_feature).

(** A child that takes the name it is sent, under a parent that does
    nothing. *)
Definition renaming_child : Reducer string string :=
  BasicReducer (λ _ action _, (action, Effect.none)).

Definition idle_parent : Reducer (option string) (WithKindValue string) :=
  PrimitiveReducer EmptyReducer._reduce.

Definition renaming_feature
  : _IfCaseLetReducer (option string) (WithKindValue string) string string :=
  mkIfCaseLet idle_parent renaming_child slot_case_path (casePath "child") (λ s, s).

(** [streaming_store] once its child has started a stream, and then once a
    cancel-scope for the root has been processed. *)
Definition streaming_store_started : RootStore (option string) (WithKindValue string) :=
  default streaming_store
    (RootStore.send 1 (mkKindValue "child" "go") streaming_store).

Definition streaming_store_cancelled : RootStore (option string) (WithKindValue string) :=
  (RootStore.processResolvedEffect (RCancelScope []) [] streaming_store_started).2.

(** Polling: the action ["start"] returns a multi-shot effect under the id
    ["poll"]; every ["tick"] it delivers is counted. *)
Definition poll : Reducer Z string :=
  BasicReducer (λ state action _,
    if String.eqb action "start"
    then (state, mkEffect (Some (NGenerator (Some "poll") ticks)) [] [])
    else ((state + 1)%Z, Effect.none)).

Definition polled_twice : option (RootStore Z string) :=
  RootStore.send 1 "start" (RootStore.new 0%Z poll) ≫= RootStore.send 1 "start".

Definition poll_store : RootStore Z string := RootStore.new 0%Z poll.

Definition polled_once : RootStore Z string :=
  default poll_store (RootStore.send 1 "start" poll_store).

(** An effect tagged with a scope: cancel ["x"] below the segment ["a"]. *)
Definition scoped_cancel : Effect Z :=
  Effect.cancellationScope (Effect.cancelScope ["x"]) "a".

Definition scoped_stream : Effect string :=
  Effect.cancellationScope (mkEffect (Some (NGenerator None ticks)) [] []) "a".

(** A tree with contexts at the root, below ["a"] and below ["b"]. *)
Definition sample_tree : EffectContextTree :=
  mkTree [0]
    (Some [("a", mkTree [1] (Some [("c", mkTree [2] None)]));
           ("b", mkTree [3] None)]).

Definition sample_mem : Mem :=
  mkMem [mkEffectContext (Some "h0") false; mkEffectContext (Some "h1") false;
         mkEffectContext None false; mkEffectContext (Some "h3") false] [].

End Samples.

(* ================================================================== *)
(** * Properties *)

(** ** Effects *)

Lemma Effect_ind' {A} (P : Effect A → Prop) :
  (∀ n cs sc, Forall P cs → P (mkEffect n cs sc)) → ∀ e, P e.
Proof.
  intros step. fix rec 1. intros [n cs sc]. apply step.
  induction cs as [|c cs IHcs]; constructor; [apply rec | exact IHcs].
Qed.

Lemma isEmpty_unfold {A} (e : Effect A) :
  Effect.isEmpty e =
  match node e with
  | Some _ => false
  | None => forallb Effect.isEmpty (children e)
  end.
Proof.
  destruct e as [[n|] cs sc]; simpl; [done|].
  induction cs as [|c cs IH]; simpl; [done|].
  destruct (Effect.isEmpty c); simpl; [exact IH | done].
Qed.

Lemma resolve_all_app {A} (es1 es2 : list (Effect A)) scope m :
  resolve_all (es1 ++ es2) scope m =
  let '(rs1, m1) := resolve_all es1 scope m in
  let '(rs2, m2) := resolve_all es2 scope m1 in
  (rs1 ++ rs2, m2).
Proof.
  revert m. induction es1 as [|e es1 IH]; intros m; simpl.
  - by destruct (resolve_all es2 scope m).
  - destruct (resolveEffect e scope m) as [rs m1]. rewrite IH.
    destruct (resolve_all es1 scope m1) as [rs1 m2].
    destruct (resolve_all es2 scope m2) as [rs2 m3].
    by rewrite app_assoc.
Qed.

Lemma resolveEffect_unfold {A} (e : Effect A) ps m :
  resolveEffect e ps m =
  if Effect.isEmpty e then ([], m)
  else
    let scope := ps ++ scope e in
    let '(own, m1) := resolve_own (node e) scope m in
    let '(rest, m2) := resolve_all (children e) scope m1 in
    (own ++ rest, m2).
Proof.
  destruct e as [n cs sc].
  change (resolveEffect (mkEffect n cs sc) ps m) with
    (if Effect.isEmpty (mkEffect n cs sc) then ([], m)
     else
       let scope := ps ++ sc in
       let '(units, m) := resolve_own n scope m in
       (fix each_child (cs : list (Effect A)) (units : list (ResolvedEffect A))
            (m : Mem) : list (ResolvedEffect A) * Mem :=
          match cs with
          | [] => (units, m)
          | child :: cs' =>
              let '(rs, m') := resolveEffect child scope m in
              each_child cs' (units ++ rs) m'
          end) cs units m).
  destruct (Effect.isEmpty _); [done|]. cbn [scope node children].
  destruct (resolve_own n (ps ++ sc) m) as [own m1].
  generalize own m1. clear. induction cs as [|c cs IH]; intros own m1; simpl.
  - by rewrite app_nil_r.
  - destruct (resolveEffect c (ps ++ sc) m1) as [rs m2]. rewrite IH.
    destruct (resolve_all cs (ps ++ sc) m2) as [rss m3].
    by rewrite app_assoc.
Qed.

Lemma nodes_preorder_unfold {A} (e : Effect A) ps :
  nodes_preorder e ps =
  match node e with
  | Some n => [(n, ps ++ scope e)]
  | None => []
  end ++ concat ((λ c, nodes_preorder c (ps ++ scope e)) <$> children e).
Proof.
  destruct e as [n cs sc]; simpl. f_equal.
  induction cs as [|c cs IH]; simpl; [done | by rewrite IH].
Qed.

Lemma nodes_preorder_empty {A} (e : Effect A) ps :
  Effect.isEmpty e = true → nodes_preorder e ps = [].
Proof.
  revert ps. induction e as [n cs sc IH] using Effect_ind'; intros ps.
  rewrite isEmpty_unfold, nodes_preorder_unfold; cbn [node children scope].
  destruct n as [n|]; [done|]. intros Hall; rewrite app_nil_l.
  induction IH as [|c cs IHc _ IHcs]; [done|].
  cbn [forallb] in Hall. apply andb_prop in Hall as [Hc Hcs].
  rewrite fmap_cons. cbn [concat]. by rewrite IHc, IHcs.
Qed.

Lemma resolve_nodes_app {A} (ns1 ns2 : list (EffectNode A * list string)) m :
  resolve_nodes (ns1 ++ ns2) m =
  let '(rs1, m1) := resolve_nodes ns1 m in
  let '(rs2, m2) := resolve_nodes ns2 m1 in
  (rs1 ++ rs2, m2).
Proof.
  revert m. induction ns1 as [|[n sc] ns1 IH]; intros m; simpl.
  - by destruct (resolve_nodes ns2 m).
  - destruct (resolveEffectNode n sc m) as [r m1]. rewrite IH.
    destruct (resolve_nodes ns1 m1) as [rs1 m2].
    by destruct (resolve_nodes ns2 m2).
Qed.

(** Resolution visits exactly the nodes of the effect, in pre-order: the
    emptiness test only skips subtrees that hold no node. *)
Lemma resolveEffect_nodes {A} (e : Effect A) ps m :
  resolveEffect e ps m = resolve_nodes (nodes_preorder e ps) m.
Proof.
  revert ps m. induction e as [n cs sc IH] using Effect_ind'; intros ps m.
  rewrite resolveEffect_unfold.
  destruct (Effect.isEmpty _) eqn:Hempty.
  { by rewrite nodes_preorder_empty. }
  rewrite nodes_preorder_unfold; cbn [node children scope].
  rewrite resolve_nodes_app.
  assert (Hown : resolve_own n (ps ++ sc) m =
    resolve_nodes match n with Some n0 => [(n0, ps ++ sc)] | None => [] end m).
  { destruct n as [n|]; simpl; [|done]. by destruct (resolveEffectNode n _ m). }
  rewrite Hown.
  destruct (resolve_nodes _ m) as [own m1]. clear Hown Hempty.
  assert (Hall : ∀ m1, resolve_all cs (ps ++ sc) m1 =
    resolve_nodes (concat ((λ c, nodes_preorder c (ps ++ sc)) <$> cs)) m1).
  { induction IH as [|c cs IHc _ IHcs]; intros m2; simpl; [done|].
    rewrite resolve_nodes_app, IHc.
    destruct (resolve_nodes _ m2) as [rs m3]. by rewrite IHcs. }
  by rewrite Hall.
Qed.

(** C5. [resolveEffect] returns [[]] for an empty effect; otherwise it
    extends the parent scope with the effect's own prefix, puts the unit of
    the node (when there is one) first, and appends the units of each child,
    resolved under the same extended scope, in child order. The list is the
    pre-order traversal of the nodes of the effect. *)
Theorem resolveEffect_preorder {A} (e : Effect A) (ps : list string) (m : Mem) :
  resolveEffect e ps m =
    (if Effect.isEmpty e then ([], m)
     else
       let scope := ps ++ scope e in
       let '(own, m1) := resolve_own (node e) scope m in
       let '(rest, m2) := resolve_all (children e) scope m1 in
       (own ++ rest, m2))
  ∧ resolveEffect e ps m = resolve_nodes (nodes_preorder e ps) m.
Proof. split; [apply resolveEffect_unfold | apply resolveEffect_nodes]. Qed.

(** *** [map] *)

Lemma map_unfold {A B} (e : Effect A) (f : A → B) :
  Effect.map e f =
  mkEffect ((λ n, mapEffectNode n f) <$> node e)
    ((λ c, Effect.map c f) <$> children e) [].
Proof.
  by destruct e as [[n|] cs sc].
Qed.

Lemma shape_unfold {A} (e : Effect A) :
  shape e = mkShape (node_kind <$> node e) (shape <$> children e).
Proof.
  by destruct e as [n cs sc].
Qed.

Lemma node_kind_map {A B} (n : EffectNode A) (f : A → B) :
  node_kind (mapEffectNode n f) = node_kind n.
Proof. by destruct n. Qed.

(** [map] keeps the shape of the tree. *)
Lemma shape_map {A B} (e : Effect A) (f : A → B) :
  shape (Effect.map e f) = shape e.
Proof.
  induction e as [n cs sc IH] using Effect_ind'.
  rewrite map_unfold, !shape_unfold; cbn [node children]. f_equal.
  - destruct n as [n|]; simpl; [|done]. by rewrite node_kind_map.
  - rewrite <- list_fmap_compose. apply Forall_fmap_ext_1.
    eapply Forall_impl; [exact IH|]. by intros c Hc.
Qed.

(** The nodes of [e.map(f)] are the nodes of [e] rewritten by [f], in the
    same order, each under the bare parent scope: the prefixes of [e] are
    gone. *)
Lemma nodes_preorder_map {A B} (e : Effect A) (f : A → B) ps ps0 :
  nodes_preorder (Effect.map e f) ps =
  (λ ns, (mapEffectNode ns.1 f, ps)) <$> nodes_preorder e ps0.
Proof.
  revert ps0. induction e as [n cs sc IH] using Effect_ind'; intros ps0.
  rewrite map_unfold, !nodes_preorder_unfold; cbn [node children scope].
  rewrite app_nil_r, fmap_app. f_equal; [by destruct n|].
  induction IH as [|c cs IHc _ IHcs]; [done|].
  rewrite !fmap_cons. cbn [concat]. rewrite fmap_app.
  by rewrite (IHc (ps0 ++ sc)), IHcs.
Qed.

Lemma action_values_cons {A} (r : ResolvedEffect A) rs :
  action_values (r :: rs) =
  match action_value r with
  | Some v => v :: action_values rs
  | None => action_values rs
  end.
Proof. done. Qed.

Lemma long_running_scopes_cons {A} (r : ResolvedEffect A) rs :
  long_running_scopes (r :: rs) =
  match r with
  | RLongRunning _ s _ _ => s :: long_running_scopes rs
  | _ => long_running_scopes rs
  end.
Proof. by destruct r. Qed.

Lemma cancel_scopes_cons {A} (r : ResolvedEffect A) rs :
  cancel_scopes (r :: rs) =
  match r with
  | RCancelScope s => s :: cancel_scopes rs
  | _ => cancel_scopes rs
  end.
Proof. by destruct r. Qed.

Lemma action_values_resolve_nodes {A} (ns : list (EffectNode A * list string)) m :
  action_values (resolve_nodes ns m).1 =
  omap (λ ns, match ns.1 with NAction v => Some v | _ => None end) ns.
Proof.
  revert m. induction ns as [|[n sc] ns IH]; intros m; [done|].
  cbn [resolve_nodes].
  destruct (resolveEffectNode n sc m) as [r m1] eqn:Hr.
  specialize (IH m1). destruct (resolve_nodes ns m1) as [rs m2].
  cbn [fst] in *. rewrite action_values_cons, IH.
  destruct n; simpl in Hr; inversion Hr; done.
Qed.

(** The action values of [e.map(f)], resolved, are [f] of those of [e], in
    the same order. *)
Lemma action_values_map {A B} (e : Effect A) (f : A → B) ps m m' :
  action_values (resolveEffect (Effect.map e f) ps m).1 =
  f <$> action_values (resolveEffect e ps m').1.
Proof.
  rewrite !resolveEffect_nodes, !action_values_resolve_nodes.
  rewrite (nodes_preorder_map e f ps ps).
  induction (nodes_preorder e ps) as [|[n sc] ns IH]; [done|].
  rewrite fmap_cons. destruct n; simpl; first [exact IH | f_equal; exact IH].
Qed.

Lemma long_running_scopes_resolve_nodes {A}
    (ns : list (EffectNode A * list string)) ps m :
  Forall (λ ns, ns.2 = ps) ns →
  Forall (λ s, s = ps) (long_running_scopes (resolve_nodes ns m).1).
Proof.
  intros Hns. revert m. induction Hns as [|[n sc] ns Hsc _ IH]; intros m.
  { constructor. }
  simpl in Hsc. subst sc. cbn [resolve_nodes].
  destruct (resolveEffectNode n ps m) as [r m1] eqn:Hr.
  specialize (IH m1). destruct (resolve_nodes ns m1) as [rs m2].
  cbn [fst] in *. rewrite long_running_scopes_cons.
  destruct n; simpl in Hr; inversion Hr; subst; try constructor; done.
Qed.

(** Every long-running unit of a mapped effect registers at the scope the
    resolution started from. *)
Lemma long_running_scopes_map {A B} (e : Effect A) (f : A → B) ps m :
  Forall (λ s, s = ps) (long_running_scopes (resolveEffect (Effect.map e f) ps m).1).
Proof.
  rewrite resolveEffect_nodes. apply long_running_scopes_resolve_nodes.
  rewrite (nodes_preorder_map e f ps ps). by apply Forall_fmap, Forall_true.
Qed.

Lemma resolveEffect_none {A} ps m : resolveEffect (@Effect.none A) ps m = ([], m).
Proof. done. Qed.

(** C3. The claim: [e.map(f)] keeps the tree shape and the scope prefix of
    every node of [e], so that [resolveEffect(e.map(f))] has [f] of the
    action values of [resolveEffect(e)] in the same order and under the same
    scopes. The code keeps the shape ([shape_map]) and the action values
    ([action_values_map]) and loses the prefixes: [map] builds a new effect
    and never copies [scope]. At [cancelScope(["x"]).cancellationScope("a")]
    the mapped effect has the prefix [[]] and cancels [["x"]] where the
    original cancels [["a"; "x"]]; a stream tagged ["a"] registers, once
    mapped, at [[]]. *)
Theorem map_drops_scope :
  scope Samples.scoped_cancel = ["a"]
  ∧ scope (Effect.map Samples.scoped_cancel Z.succ) = []
  ∧ cancel_scopes (resolveEffect Samples.scoped_cancel [] empty_Mem).1
    = [["a"; "x"]]
  ∧ cancel_scopes
      (resolveEffect (Effect.map Samples.scoped_cancel Z.succ) [] empty_Mem).1
    = [["x"]]
  ∧ long_running_scopes (resolveEffect Samples.scoped_stream [] empty_Mem).1
    = [["a"]]
  ∧ long_running_scopes
      (resolveEffect (Effect.map Samples.scoped_stream (λ a, a)) [] empty_Mem).1
    = [[]].
Proof. repeat split; reflexivity. Qed.

(** ** Conditional mounting: the child step *)

Lemma map_not_scoped {A B} (e : Effect A) (f : A → B) (e' : Effect B) seg :
  Effect.map e f ≠ Effect.cancellationScope e' seg.
Proof. rewrite map_unfold. unfold Effect.cancellationScope. by intros [=]. Qed.

Lemma none_not_scoped {A} (e' : Effect A) seg :
  Effect.none ≠ Effect.cancellationScope e' seg.
Proof. by intros [=]. Qed.

Lemma scope_map {A B} (e : Effect A) (f : A → B) : scope (Effect.map e f) = [].
Proof. by rewrite map_unfold. Qed.

Section reduceChild.
Context {State Action ChildState ChildAction : Type}.
Context `{Truthy ChildState, Truthy ChildAction}.

Lemma IfLet_reduceChild_effect
    (self : _IfLetReducer State Action ChildState ChildAction) s a d :
  (_IfLetReducer.reduceChild self s a d).2 =
  match present (extract (iflet_action self) a),
        present (get (iflet_state self) s) with
  | Some ca, Some cs =>
      Effect.map (run (iflet_child self) cs ca d).2 (embed (iflet_action self))
  | _, _ => Effect.none
  end.
Proof.
  unfold _IfLetReducer.reduceChild.
  destruct (present (extract _ a)) as [ca|]; [|done].
  destruct (present (get _ s)) as [cs|]; [|done].
  by destruct (run _ cs ca d).
Qed.

Lemma IfCaseLet_reduceChild_effect
    (self : _IfCaseLetReducer State Action ChildState ChildAction) s a d :
  (_IfCaseLetReducer.reduceChild self s a d).2 =
  match present (extract (ifcase_action self) a),
        present (extract (ifcase_state self) s) with
  | Some ca, Some cs =>
      Effect.map (run (ifcase_child self) cs ca d).2 (embed (ifcase_action self))
  | _, _ => Effect.none
  end.
Proof.
  unfold _IfCaseLetReducer.reduceChild.
  destruct (present (extract _ a)) as [ca|]; [|done].
  destruct (present (extract _ s)) as [cs|]; [|done].
  by destruct (run _ cs ca d).
Qed.

Lemma unscoped_map {B} (e : Effect B) (f : B → Action) : unscoped (Effect.map e f).
Proof.
  split; [apply scope_map|].
  split; [intros; apply map_not_scoped|]. intros; apply long_running_scopes_map.
Qed.

Lemma unscoped_none : unscoped (A:=Action) Effect.none.
Proof.
  split; [done|]. split; [intros; apply none_not_scoped|]. intros. constructor.
Qed.
End reduceChild.

(** C10. The effect that [reduceChild] returns, in [_IfLetReducer] and in
    [_IfCaseLetReducer], is the child's effect mapped through the action
    embedding and nothing more: its scope prefix is empty, it is not the
    variant tagged with [cancellationScope(id(newChildState))], and every
    long-running unit it resolves to registers at the scope the resolution
    started from, not below the child's identity. For a child ["x"] that
    starts a stream, the stream resolves at [[]] and the store registers its
    context at the root of the tree. *)
Theorem reduceChild_effect_unscoped :
  (∀ State Action ChildState ChildAction
     (TS : Truthy ChildState) (TA : Truthy ChildAction)
     (self : _IfLetReducer State Action ChildState ChildAction) s a d,
     (_IfLetReducer.reduceChild self s a d).2 =
       match present (extract (iflet_action self) a),
             present (get (iflet_state self) s) with
       | Some ca, Some cs =>
           Effect.map (run (iflet_child self) cs ca d).2 (embed (iflet_action self))
       | _, _ => Effect.none
       end
     ∧ unscoped (_IfLetReducer.reduceChild self s a d).2)
  ∧ (∀ State Action ChildState ChildAction
       (TS : Truthy ChildState) (TA : Truthy ChildAction)
       (self : _IfCaseLetReducer State Action ChildState ChildAction) s a d,
       (_IfCaseLetReducer.reduceChild self s a d).2 =
         match present (extract (ifcase_action self) a),
               present (extract (ifcase_state self) s) with
         | Some ca, Some cs =>
             Effect.map (run (ifcase_child self) cs ca d).2
               (embed (ifcase_action self))
         | _, _ => Effect.none
         end
       ∧ unscoped (_IfCaseLetReducer.reduceChild self s a d).2)
  ∧ long_running_scopes
      (resolveEffect
         (_IfLetReducer.reduceChild Samples.streaming_feature (Some "x")
            (mkKindValue "child" "go") new_DependencyValues).2 [] empty_Mem).1
    = [[]]
  ∧ effectTree <$>
      RootStore.send 1 (mkKindValue "child" "go") Samples.streaming_store
    = Some (mkTree [0] None).
Proof.
  split; [|split; [|split; reflexivity]].
  - intros. split; [apply IfLet_reduceChild_effect|].
    rewrite IfLet_reduceChild_effect.
    repeat case_match; auto using unscoped_map, unscoped_none.
  - intros. split; [apply IfCaseLet_reduceChild_effect|].
    rewrite IfCaseLet_reduceChild_effect.
    repeat case_match; auto using unscoped_map, unscoped_none.
Qed.

(** ** [merge] *)

Lemma resolveEffect_empty {A} (e : Effect A) ps m :
  Effect.isEmpty e = true → resolveEffect e ps m = ([], m).
Proof. intros He. by rewrite resolveEffect_unfold, He. Qed.

Lemma filter_nonEmpty_cons {A} (e : Effect A) es :
  filter (λ x, negb (Effect.isEmpty x)) (e :: es) =
  if Effect.isEmpty e then filter (λ x, negb (Effect.isEmpty x)) es
  else e :: filter (λ x, negb (Effect.isEmpty x)) es.
Proof.
  rewrite filter_cons.
  case_decide as Hd; simpl in Hd; destruct (Effect.isEmpty e); simpl in Hd; done.
Qed.

Lemma resolve_all_filter {A} (es : list (Effect A)) ps m :
  resolve_all (filter (λ x, negb (Effect.isEmpty x)) es) ps m = resolve_all es ps m.
Proof.
  revert m. induction es as [|e es IH]; intros m; [done|].
  rewrite filter_nonEmpty_cons. destruct (Effect.isEmpty e) eqn:He.
  - cbn [resolve_all]. rewrite (resolveEffect_empty e) by done. rewrite IH.
    by destruct (resolve_all es ps m).
  - cbn [resolve_all]. destruct (resolveEffect e ps m) as [rs m1]. by rewrite IH.
Qed.

Lemma forallb_isEmpty_filter {A} (es : list (Effect A)) :
  forallb Effect.isEmpty (filter (λ x, negb (Effect.isEmpty x)) es) =
  match filter (λ x, negb (Effect.isEmpty x)) es with [] => true | _ => false end.
Proof.
  induction es as [|e es IH]; [done|]. rewrite filter_nonEmpty_cons.
  destruct (Effect.isEmpty e) eqn:He; [done|]. cbn [forallb]. by rewrite He.
Qed.

(** Resolving a merge is resolving its arguments one after the other. *)
Lemma resolveEffect_merge {A} (es : list (Effect A)) ps m :
  resolveEffect (Effect.merge es) ps m = resolve_all es ps m.
Proof.
  rewrite <- resolve_all_filter. unfold Effect.merge.
  pose proof (forallb_isEmpty_filter es) as Hne.
  destruct (filter _ es) as [|x [|y l]] eqn:Hf.
  - done.
  - cbn [resolve_all]. destruct (resolveEffect x ps m). by rewrite app_nil_r.
  - rewrite resolveEffect_unfold, isEmpty_unfold; cbn [node children scope].
    rewrite Hne, app_nil_r. cbn [resolve_own]. by destruct (resolve_all _ ps m).
Qed.

Lemma isEmpty_merge {A} (es : list (Effect A)) :
  Effect.isEmpty (Effect.merge es) = forallb Effect.isEmpty es.
Proof.
  unfold Effect.merge. pose proof (forallb_isEmpty_filter es) as Hne.
  assert (Hall : forallb Effect.isEmpty es =
    match filter (λ x, negb (Effect.isEmpty x)) es with [] => true | _ => false end).
  { clear. induction es as [|e es IH]; [done|].
    rewrite filter_nonEmpty_cons. cbn [forallb].
    by destruct (Effect.isEmpty e). }
  rewrite Hall. destruct (filter _ es) as [|x [|y l]] eqn:Hf.
  - done.
  - cbn [forallb] in Hne. by destruct (Effect.isEmpty x).
  - by rewrite isEmpty_unfold.
Qed.

(** ** CombineReducers *)

Lemma state_after_cons {State Action} (r : Reducer State Action) rs s a d :
  state_after (r :: rs) s a d = state_after rs (run r s a d).1 a d.
Proof. done. Qed.

Lemma CombineReducers_loop {State Action} (rs : list (Reducer State Action))
    (s : State) (a : Action) d effects :
  foldl
    (λ '(state, effects) reducer,
       let '(newState, newEffect) := run reducer state a d in
       (newState, effects ++ [newEffect]))
    (s, effects) rs =
  (state_after rs s a d, effects ++ sibling_effects rs s a d).
Proof.
  revert s effects. induction rs as [|r rs IH]; intros s effects.
  { unfold sibling_effects. simpl. by rewrite app_nil_r. }
  cbn [foldl]. destruct (run r s a d) as [ns ne] eqn:Hr. rewrite IH.
  rewrite state_after_cons, Hr. f_equal. rewrite <- app_assoc. f_equal.
  unfold sibling_effects. rewrite imap_cons. cbn [take].
  unfold state_after at 2. cbn [foldl]. rewrite Hr. f_equal.
  apply imap_ext. intros i r' _. unfold compose. cbn [take].
  by rewrite state_after_cons, Hr.
Qed.

(** C6. [CombineReducers] runs its reducers in order against the same
    action; the state it returns is the state threaded through all of them,
    the [i]-th sibling runs on the state left by the [i] siblings before it
    (not on the state before the action), and the effect it returns merges
    the siblings' effects in that order. Two counters combined, sent one
    increment at [{count: 0}], leave [{count: 2}]. *)
Theorem CombineReducers_threads_state :
  (∀ State Action (reducers : list (Reducer State Action)) s a d,
     CombineReducers._reduce reducers s a d =
       (state_after reducers s a d, Effect.merge (sibling_effects reducers s a d))
     ∧ ∀ ps m,
         resolveEffect (CombineReducers._reduce reducers s a d).2 ps m =
         resolve_all (sibling_effects reducers s a d) ps m)
  ∧ run Samples.two_counters (Samples.mkCounter 0)
      Samples.incrementButtonTapped new_DependencyValues
    = (Samples.mkCounter 2, Effect.none)
  ∧ state <$>
      RootStore.drain 1 [Samples.incrementButtonTapped]
        (RootStore.new (Samples.mkCounter 0) Samples.two_counters)
    = Some (Samples.mkCounter 2).
Proof.
  split; [|split; reflexivity].
  intros State Action reducers s a d.
  assert (Heq : CombineReducers._reduce reducers s a d =
    (state_after reducers s a d, Effect.merge (sibling_effects reducers s a d))).
  { unfold CombineReducers._reduce. by rewrite CombineReducers_loop. }
  split; [exact Heq|]. intros ps m. rewrite Heq. apply resolveEffect_merge.
Qed.

(** ** Conditional mounting: teardown *)

Lemma id_changed_teardown {A} (old new : option string) (effects : list (Effect A)) :
  match old with
  | Some x =>
      if id_changed old new then effects ++ [Effect.cancelScope [x]] else effects
  | None => effects
  end = effects ++ teardown old new.
Proof.
  unfold id_changed, teardown. destruct old as [x|]; [|by rewrite app_nil_r].
  rewrite (bool_decide_eq_false_2 (Some x = None)) by done.
  rewrite andb_true_r.
  case_bool_decide; case_decide; simpl; rewrite ?app_nil_r; done.
Qed.

Section teardown.
Context {State Action ChildState ChildAction : Type}.
Context `{Truthy ChildState, Truthy ChildAction}.

Lemma IfLet_reduce_eq
    (self : _IfLetReducer State Action ChildState ChildAction) s a d :
  let child := _IfLetReducer.reduceChild self s a d in
  let oldChildId := _IfLetReducer.getChildId self child.1 in
  let parent := run (iflet_parent self) child.1 a d in
  let newChildId := _IfLetReducer.getChildId self parent.1 in
  _IfLetReducer._reduce self s a d =
  (parent.1, Effect.merge ([child.2; parent.2] ++ teardown oldChildId newChildId)).
Proof.
  intros child oldChildId parent newChildId. unfold _IfLetReducer._reduce.
  fold child. fold oldChildId. fold parent. fold newChildId.
  by rewrite id_changed_teardown.
Qed.

Lemma IfCaseLet_reduce_eq
    (self : _IfCaseLetReducer State Action ChildState ChildAction) s a d :
  let child := _IfCaseLetReducer.reduceChild self s a d in
  let oldChildId := _IfCaseLetReducer.getChildId self child.1 in
  let parent := run (ifcase_parent self) child.1 a d in
  let newChildId := _IfCaseLetReducer.getChildId self parent.1 in
  _IfCaseLetReducer._reduce self s a d =
  (parent.1, Effect.merge ([child.2; parent.2] ++ teardown oldChildId newChildId)).
Proof.
  intros child oldChildId parent newChildId. unfold _IfCaseLetReducer._reduce.
  fold child. fold oldChildId. fold parent. fold newChildId.
  by rewrite id_changed_teardown.
Qed.
End teardown.

(** C7. In [_IfLetReducer] and [_IfCaseLetReducer] the identity of the child
    is read from the state left by the child step and read again from the
    state left by the parent reducer; the effect returned merges the child's
    effect, the parent's effect and then, when the first identity was there
    and differs from the second, a cancel-scope for the first identity; so
    the resolved units are the child's, then the parent's, then that
    cancel-scope. A slot going from ["x"] to ["y"] resolves to a cancel-scope
    for [["x"]] and none for [["y"]]. *)
Theorem IfLet_teardown_on_identity_change :
  (∀ State Action ChildState ChildAction
     (TS : Truthy ChildState) (TA : Truthy ChildAction)
     (self : _IfLetReducer State Action ChildState ChildAction) s a d,
     let child := _IfLetReducer.reduceChild self s a d in
     let oldChildId := _IfLetReducer.getChildId self child.1 in
     let parent := run (iflet_parent self) child.1 a d in
     let newChildId := _IfLetReducer.getChildId self parent.1 in
     _IfLetReducer._reduce self s a d =
       (parent.1,
        Effect.merge ([child.2; parent.2] ++ teardown oldChildId newChildId))
     ∧ ∀ ps m,
         resolveEffect (_IfLetReducer._reduce self s a d).2 ps m =
         resolve_all ([child.2; parent.2] ++ teardown oldChildId newChildId) ps m)
  ∧ (∀ State Action ChildState ChildAction
       (TS : Truthy ChildState) (TA : Truthy ChildAction)
       (self : _IfCaseLetReducer State Action ChildState ChildAction) s a d,
       let child := _IfCaseLetReducer.reduceChild self s a d in
       let oldChildId := _IfCaseLetReducer.getChildId self child.1 in
       let parent := run (ifcase_parent self) child.1 a d in
       let newChildId := _IfCaseLetReducer.getChildId self parent.1 in
       _IfCaseLetReducer._reduce self s a d =
         (parent.1,
          Effect.merge ([child.2; parent.2] ++ teardown oldChildId newChildId))
       ∧ ∀ ps m,
           resolveEffect (_IfCaseLetReducer._reduce self s a d).2 ps m =
           resolve_all ([child.2; parent.2] ++ teardown oldChildId newChildId) ps m)
  ∧ (resolveEffect
       (_IfLetReducer._reduce Samples.slot_feature (Some "x")
          (mkKindValue "replace" "y") new_DependencyValues).2 [] empty_Mem).1
    = [RCancelScope ["x"]]
  ∧ (resolveEffect
       (_IfCaseLetReducer._reduce Samples.slot_case_feature (Some "x")
          (mkKindValue "replace" "y") new_DependencyValues).2 [] empty_Mem).1
    = [RCancelScope ["x"]].
Proof.
  split; [|split; [|split; reflexivity]].
  - intros. split; [apply IfLet_reduce_eq|]. intros ps m.
    rewrite IfLet_reduce_eq. apply resolveEffect_merge.
  - intros. split; [apply IfCaseLet_reduce_eq|]. intros ps m.
    rewrite IfCaseLet_reduce_eq. apply resolveEffect_merge.
Qed.

(** ** Scope *)

(** C2, as stated, fails: a [Scope] over the case ["loaded"], run on
    [{kind: "loaded", value: 1}] with a child action [5], both extracting,
    does not return the parent state it was given; it returns
    [{kind: "loaded", value: 6}]. *)
Lemma Scope_case_path_returns_new_parent :
  extract (casePath "loaded") (mkKindValue "loaded" 1%Z) = Some 1%Z
  ∧ extract (scope_action Samples.loaded_scope) (mkKindValue "child" 5%Z) = Some 5%Z
  ∧ (Scope._reduce Samples.loaded_scope (mkKindValue "loaded" 1%Z)
       (mkKindValue "child" 5%Z) new_DependencyValues).1
    = mkKindValue "loaded" 6%Z
  ∧ (Scope._reduce Samples.loaded_scope (mkKindValue "loaded" 1%Z)
       (mkKindValue "child" 5%Z) new_DependencyValues).1
    ≠ mkKindValue "loaded" 1%Z.
Proof. repeat split; [reflexivity..|]. by intros [=]. Qed.

(** C2, amended. For a [Scope] built with a partial (case-path) state
    accessor, when the child state and the child action both extract to
    values the guard lets through, the reducer returns the parent state
    rebuilt by the accessor's [embed] from the state the child reducer
    returned (the new child state is written back), together with the
    child's effect mapped through the action's [embed]. *)
Theorem Scope_case_path_embeds_child
    {ParentState ParentAction LocalState LocalAction : Type}
    `{Truthy LocalState, Truthy LocalAction}
    (self : Scope ParentState ParentAction LocalState LocalAction)
    (path : CasePath ParentState LocalState)
    (state : ParentState) (action : ParentAction)
    (childState : LocalState) (childAction : LocalAction) (d : DependencyValues) :
  scope_state self = inr path →
  present (extract path state) = Some childState →
  present (extract (scope_action self) action) = Some childAction →
  Scope._reduce self state action d =
    (embed path (run (scope_child self) childState childAction d).1,
     Effect.map (run (scope_child self) childState childAction d).2
       (embed (scope_action self))).
Proof.
  intros Hpath Hstate Haction. unfold Scope._reduce.
  rewrite Hpath, Hstate, Haction. by destruct (run _ childState childAction d).
Qed.

Lemma Scope_case_path_embeds_child_witness :
  Scope._reduce Samples.loaded_scope (mkKindValue "loaded" 1%Z)
    (mkKindValue "child" 5%Z) new_DependencyValues =
  (embed (casePath "loaded")
     (run Samples.loaded_child 1%Z 5%Z new_DependencyValues).1,
   Effect.map (run Samples.loaded_child 1%Z 5%Z new_DependencyValues).2
     (embed (casePath "child"))).
Proof.
  apply (Scope_case_path_embeds_child Samples.loaded_scope (casePath "loaded")
           (mkKindValue "loaded" 1%Z) (mkKindValue "child" 5%Z) 1%Z 5%Z);
    reflexivity.
Defined.

(** ** The store: subscribers *)

Section send.
Context {State Action : Type}.
Context `{StrictEq State, Truthy Action}.
Implicit Type self : RootStore State Action.

Lemma processResolvedEffect_subscribers x pending self :
  callbacks (RootStore.processResolvedEffect x pending self).2 = callbacks self
  ∧ notified (RootStore.processResolvedEffect x pending self).2 = notified self.
Proof.
  destruct x; simpl; try done.
  by destruct (EffectContextTree.cancel _ _ _).
Qed.

Lemma processResolvedEffects_subscribers units pending self :
  let r := foldl (λ '(pendingActions, self) x,
                    RootStore.processResolvedEffect x pendingActions self)
             (pending, self) units in
  callbacks r.2 = callbacks self ∧ notified r.2 = notified self.
Proof.
  revert pending self. induction units as [|x units IH]; intros pending self; [done|].
  cbn [foldl]. destruct (RootStore.processResolvedEffect x pending self)
    as [pending' self'] eqn:Hx.
  pose proof (processResolvedEffect_subscribers x pending self) as [Hc Hn].
  rewrite Hx in Hc, Hn. simpl in Hc, Hn.
  destruct (IH pending' self') as [Hc' Hn']. simpl. by rewrite <- Hc, <- Hn.
Qed.

Lemma processAction_subscribers action pending self :
  callbacks (RootStore.processAction action pending self).2 = callbacks self
  ∧ notified (RootStore.processAction action pending self).2 = notified self.
Proof.
  unfold RootStore.processAction.
  destruct (run _ _ action _) as [newState effect].
  destruct (resolveEffect effect [] _) as [units m].
  apply (processResolvedEffects_subscribers units pending
           (RootStore.with_mem (RootStore.with_state self newState) m)).
Qed.

Lemma drain_subscribers fuel pending self self' :
  RootStore.drain fuel pending self = Some self' →
  callbacks self' = callbacks self ∧ notified self' = notified self.
Proof.
  revert pending self. induction fuel as [|fuel IH]; intros pending self.
  - destruct pending as [|next pending]; simpl; [by intros [= <-]|].
    destruct (truthy next); simpl; [done | by intros [= <-]].
  - destruct pending as [|next pending]; simpl; [by intros [= <-]|].
    destruct (truthy next); simpl; [| by intros [= <-]].
    destruct (RootStore.processAction next pending self) as [pending' self1] eqn:Hp.
    intros Hd. apply IH in Hd as [Hc Hn].
    pose proof (processAction_subscribers next pending self) as [Hc1 Hn1].
    rewrite Hp in Hc1, Hn1. simpl in Hc1, Hn1. by rewrite Hc, Hn.
Qed.
End send.

(** C8. When a call of [send] returns, the queue having drained: if the
    state is the one captured at the start ([===]) no subscriber has been
    called; otherwise each registered callback has been called once, in
    registration order, with the final state. The registrations themselves
    are untouched. *)
Theorem send_notifies_iff_state_changed {State Action : Type}
    `{StrictEq State, Truthy Action}
    (fuel : nat) (action : Action) (self self' : RootStore State Action) :
  RootStore.send fuel action self = Some self' →
  callbacks self' = callbacks self
  ∧ notified self' =
      notified self ++
      (if strict_eq (state self) (state self') then []
       else (λ '(_, callback), (callback, state self')) <$> callbacks self).
Proof.
  unfold RootStore.send.
  destruct (RootStore.drain fuel [action] self) as [self1|] eqn:Hd; [|done].
  apply drain_subscribers in Hd as [Hc Hn].
  destruct (strict_eq (state self) (state self1)) eqn:Heq.
  - intros [= <-]. rewrite Heq, app_nil_r. done.
  - intros [= <-]. simpl. by rewrite Heq, Hc, Hn.
Qed.

Lemma send_notifies_iff_state_changed_witness :
  RootStore.send 1 5%Z Samples.adder_store = Some Samples.adder_store_sent
  ∧ callbacks Samples.adder_store_sent = [("a", "render-a"); ("b", "render-b")]
  ∧ notified Samples.adder_store_sent = [("render-a", 5%Z); ("render-b", 5%Z)].
Proof.
  split; [reflexivity|].
  exact (send_notifies_iff_state_changed 1 5%Z Samples.adder_store
           Samples.adder_store_sent eq_refl).
Defined.

(** ** Cancellation of one context *)

Lemma cancel_cancelled (c : EffectContext) :
  isCancelled c = true → EffectContext.cancel c = (c, []).
Proof. intros Hc. unfold EffectContext.cancel. by rewrite Hc. Qed.

Lemma cancel_running (c : EffectContext) :
  isCancelled c = false →
  EffectContext.cancel c =
  (mkEffectContext (onCancellation c) true, option_list (onCancellation c)).
Proof.
  intros Hc. unfold EffectContext.cancel. rewrite Hc. simpl.
  by destruct (onCancellation c).
Qed.

Lemma cancel_sets_flag (c : EffectContext) :
  isCancelled (EffectContext.cancel c).1 = true.
Proof.
  destruct (isCancelled c) eqn:Hc.
  - by rewrite cancel_cancelled.
  - by rewrite cancel_running.
Qed.

(** Under a set flag a step delivers nothing. *)
Lemma pull_cancelled {A} (r : Running A) : (pull r true).1 = None.
Proof.
  destruct r as [[result|]|g s|]; simpl; try done.
  by destruct (gen_next g s true) as [[result s']|].
Qed.

(** Once the flag is set nothing is yielded and no hook runs, whatever
    comes. *)
Lemma consume_cancelled {A} (evs : list Event) (c : EffectContext) (r : Running A) :
  isCancelled c = true → consume evs c r = ([], [], c).
Proof.
  intros Hc. revert r. induction evs as [|[|] evs IH]; intros r; [done|..].
  - cbn [consume]. rewrite cancel_cancelled by done. by rewrite IH.
  - cbn [consume]. rewrite Hc. pose proof (pull_cancelled r) as Hp.
    destruct (pull r true) as [y r']. simpl in Hp. subst y. by rewrite IH.
Qed.

Lemma consume_yields_until_cancel {A} (pre post : list Event) (c : EffectContext)
    (r : Running A) :
  (consume (pre ++ Cancel :: post) c r).1.1 = (consume pre c r).1.1.
Proof.
  revert c r. induction pre as [|[|] pre IH]; intros c r.
  - cbn [app consume]. destruct (EffectContext.cancel c) as [c' hs] eqn:Hc.
    rewrite consume_cancelled; [done|].
    pose proof (cancel_sets_flag c) as Hf. by rewrite Hc in Hf.
  - cbn [app consume]. destruct (EffectContext.cancel c) as [c' hs].
    specialize (IH c' r).
    destruct (consume (pre ++ Cancel :: post) c' r) as [[ys1 hs1] c1].
    by destruct (consume pre c' r) as [[ys2 hs2] c2].
  - cbn [app consume]. destruct (pull r (isCancelled c)) as [y r'].
    specialize (IH c r').
    destruct (consume (pre ++ Cancel :: post) c r') as [[ys1 hs1] c1].
    destruct (consume pre c r') as [[ys2 hs2] c2]. simpl in *. by rewrite IH.
Qed.

Lemma consume_hooks {A} (evs : list Event) (c : EffectContext) (r : Running A) :
  (consume evs c r).1.2 =
  if isCancelled c then []
  else if has_cancel evs then option_list (onCancellation c) else [].
Proof.
  destruct (isCancelled c) eqn:Hc.
  { by rewrite consume_cancelled. }
  revert r. induction evs as [|[|] evs IH]; intros r; [done|..].
  - cbn [consume has_cancel existsb orb]. rewrite cancel_running by done.
    rewrite consume_cancelled by done. simpl. by rewrite app_nil_r.
  - cbn [consume has_cancel existsb orb]. destruct (pull r (isCancelled c)) as [y r'].
    specialize (IH r'). by destruct (consume evs c r') as [[ys hs] c'].
Qed.

(** C4. The unit resolved from a multi-shot node runs the node's generator;
    each step of the running sequence reads the context's flag before it
    delivers, and delivers nothing under a set flag; whatever is pulled
    after a cancellation, the elements yielded are those yielded before it;
    and over any run of cancellations and pulls a context that was running
    invokes its cleanup hook once if it is cancelled at least once, and a
    context already cancelled never invokes it again. *)
Theorem cancelled_stream_stops_and_cleans_up_once {A : Type}
    (id : option string) (g : Generator A) (scope : list string) (m : Mem) :
  (resolveEffectNode (NGenerator id g) scope m).1
    = RLongRunning (resolved_id id) scope (length (contexts m)) (StartGenerator g)
  ∧ contexts (resolveEffectNode (NGenerator id g) scope m).2
      !! length (contexts m) = Some new_EffectContext
  ∧ (∀ r : Running A, (pull r true).1 = None)
  ∧ (∀ (c : EffectContext) (pre post : list Event),
       (consume (pre ++ Cancel :: post) c (launch (StartGenerator g))).1.1
       = (consume pre c (launch (StartGenerator g))).1.1)
  ∧ (∀ (c : EffectContext) (evs : list Event),
       (consume evs c (launch (StartGenerator g))).1.2
       = if isCancelled c then []
         else if has_cancel evs then option_list (onCancellation c) else []).
Proof.
  split; [done|]. split.
  { simpl. by rewrite lookup_app_r, Nat.sub_diag. }
  split; [apply pull_cancelled|].
  split; [intros; apply consume_yields_until_cancel | intros; apply consume_hooks].
Qed.

(** ** The context tree *)

Lemma EffectContextTree_ind' (P : EffectContextTree → Prop) :
  (∀ cs, P (mkTree cs None)) →
  (∀ cs ch, Forall (λ kv, P kv.2) ch → P (mkTree cs (Some ch))) →
  ∀ t, P t.
Proof.
  intros leaf inner. fix rec 1. intros [cs [ch|]]; [|apply leaf].
  apply inner. induction ch as [|[k c] ch IHch]; constructor; [apply rec | exact IHch].
Qed.

Lemma JsMap_get_delete {V} (k : string) (m : list (string * V)) :
  JsMap.get k (JsMap.delete k m) = None.
Proof.
  unfold JsMap.delete. induction m as [|[k' v] m IH]; [done|].
  rewrite filter_cons. simpl. destruct (String.eqb k k') eqn:Hk; simpl.
  - exact IH.
  - by rewrite Hk.
Qed.

Lemma JsMap_get_delete_ne {V} (k k0 : string) (m : list (string * V)) :
  String.eqb k0 k = false →
  JsMap.get k0 (JsMap.delete k m) = JsMap.get k0 m.
Proof.
  intros Hne. unfold JsMap.delete. induction m as [|[k' v] m IH]; [done|].
  rewrite filter_cons. simpl. destruct (String.eqb k k') eqn:Hk; simpl.
  - apply String.eqb_eq in Hk as <-. by rewrite Hne.
  - by rewrite IH.
Qed.

Lemma JsMap_get_set_ne {V} (k k0 : string) (v : V) (m : list (string * V)) :
  String.eqb k0 k = false →
  JsMap.get k0 (JsMap.set k v m) = JsMap.get k0 m.
Proof.
  intros Hne. induction m as [|[k' v'] m IH]; simpl.
  - by rewrite Hne.
  - destruct (String.eqb k k') eqn:Hk; simpl.
    + apply String.eqb_eq in Hk as <-. by rewrite Hne.
    + by rewrite IH.
Qed.

Lemma cancel_ref_length (r : CtxRef) (m : Mem) :
  length (contexts (cancel_ref r m)) = length (contexts m).
Proof.
  unfold cancel_ref. destruct (contexts m !! r) as [c|]; [|done].
  destruct (EffectContext.cancel c) as [c' hs]. simpl. apply length_insert.
Qed.

Lemma is_cancelled_cancel_ref (r r' : CtxRef) (m : Mem) :
  is_cancelled (cancel_ref r m) r' =
  is_cancelled m r' || (bool_decide (r' = r) && allocated m r').
Proof.
  unfold is_cancelled, cancel_ref, allocated.
  destruct (contexts m !! r) as [c|] eqn:Hr.
  - pose proof (cancel_sets_flag c) as Hflag.
    destruct (EffectContext.cancel c) as [c' hs]. simpl in *.
    apply lookup_lt_Some in Hr as Hlt.
    destruct (decide (r' = r)) as [->|Hne].
    + rewrite list_lookup_insert_eq by done. rewrite Hr, Hflag.
      rewrite !bool_decide_eq_true_2 by done. by rewrite orb_true_r.
    + rewrite list_lookup_insert_ne by done.
      rewrite (bool_decide_eq_false_2 (r' = r)) by done. by rewrite orb_false_r.
  - apply lookup_ge_None in Hr.
    destruct (decide (r' = r)) as [->|Hne].
    + rewrite (bool_decide_eq_false_2 (r < _)) by lia.
      by rewrite andb_false_r, orb_false_r.
    + rewrite (bool_decide_eq_false_2 (r' = r)) by done. by rewrite orb_false_r.
Qed.

Lemma is_cancelled_cancel_all (l : list CtxRef) (r : CtxRef) (m : Mem) :
  is_cancelled (foldl (λ m context, cancel_ref context m) m l) r =
  is_cancelled m r || (bool_decide (r ∈ l) && allocated m r).
Proof.
  revert m. induction l as [|x l IH]; intros m.
  { cbn [foldl]. rewrite bool_decide_eq_false_2 by apply not_elem_of_nil.
    by rewrite orb_false_r. }
  cbn [foldl]. rewrite IH, is_cancelled_cancel_ref.
  assert (Halloc : allocated (cancel_ref x m) r = allocated m r).
  { unfold allocated. by rewrite cancel_ref_length. }
  rewrite Halloc. destruct (is_cancelled m r); [done|]. simpl.
  destruct (allocated m r); [|by rewrite !andb_false_r].
  rewrite !andb_true_r. apply eq_true_iff_eq.
  rewrite orb_true_iff, !bool_decide_eq_true, elem_of_cons. done.
Qed.

(** [cancelSelf] cancels every context of the tree, in pre-order, and leaves
    the tree empty. *)
Lemma cancelSelf_all (t : EffectContextTree) (m : Mem) :
  EffectContextTree.cancelSelf t m =
  (mkTree [] None, foldl (λ m context, cancel_ref context m) m (all_contexts t)).
Proof.
  revert m. induction t as [cs|cs ch IH] using EffectContextTree_ind'; intros m.
  - simpl. rewrite app_nil_r. by destruct cs.
  - cbn [EffectContextTree.cancelSelf all_contexts tcontexts tchildren].
    rewrite foldl_app. f_equal; [by destruct cs|].
    generalize (foldl (λ m context, cancel_ref context m) m cs). clear m.
    induction IH as [|[k c] ch IHc _ IHch]; intros m; [done|].
    simpl in IHc. rewrite IHc. cbn [snd]. rewrite IHch. by rewrite foldl_app.
Qed.

(** C9. Cancelling the empty path cancels every context stored anywhere in
    the tree and leaves the tree empty. Cancelling the path [[a]] cancels
    exactly the contexts registered at or below the segment [a]: the flag of
    a context afterwards is its flag before, or set when the context is one
    of those; the subtree at [a] is discarded, and the root's own contexts and
    every sibling subtree are left as they were. On a tree with contexts
    0 at the root, 1 and 2 below ["a"] and 3 below ["b"], cancelling [["a"]]
    sets the flags of 1 and 2 and of no other. *)
Theorem cancel_scope_is_exact (t : EffectContextTree) (m : Mem) :
  (all_contexts (EffectContextTree.cancel [] t m).1 = []
   ∧ ∀ r, is_cancelled (EffectContextTree.cancel [] t m).2 r =
          is_cancelled m r || (bool_decide (r ∈ all_contexts t) && allocated m r))
  ∧ (∀ a,
       (∀ r, is_cancelled (EffectContextTree.cancel [a] t m).2 r =
             is_cancelled m r
             || (bool_decide (r ∈ contexts_below a t) && allocated m r))
       ∧ tcontexts (EffectContextTree.cancel [a] t m).1 = tcontexts t
       ∧ ∀ b, subtree b (EffectContextTree.cancel [a] t m).1 =
              if String.eqb b a then None else subtree b t)
  ∧ is_cancelled
      (EffectContextTree.cancel ["a"] Samples.sample_tree Samples.sample_mem).2
      <$> [0; 1; 2; 3]
    = [false; true; true; false].
Proof.
  split; [|split; [|reflexivity]].
  - cbn [EffectContextTree.cancel]. rewrite cancelSelf_all. cbn [fst snd].
    split; [done|]. intros r. apply is_cancelled_cancel_all.
  - intros a. unfold contexts_below, subtree.
    cbn [EffectContextTree.cancel]. destruct t as [cs [ch|]]; cbn [tchildren tcontexts].
    2:{ split; [|split]; [|done|].
        - intros r. rewrite bool_decide_eq_false_2 by apply not_elem_of_nil.
          by rewrite orb_false_r.
        - intros b. by destruct (String.eqb b a). }
    destruct (JsMap.get a ch) as [child|] eqn:Hget.
    2:{ split; [|split]; [|done|].
        - intros r. rewrite bool_decide_eq_false_2 by apply not_elem_of_nil.
          by rewrite orb_false_r.
        - intros b. simpl. destruct (String.eqb b a) eqn:Hb; [|done].
          by apply String.eqb_eq in Hb as ->. }
    rewrite cancelSelf_all. cbn [fst snd tcontexts tchildren].
    split; [|split]; [|done|].
    + intros r. apply is_cancelled_cancel_all.
    + intros b. destruct (String.eqb b a) eqn:Hb.
      * apply String.eqb_eq in Hb as ->. apply JsMap_get_delete.
      * rewrite JsMap_get_delete_ne by done. by apply JsMap_get_set_ne.
Qed.

Lemma JsMap_get_set {V} (k : string) (v : V) (m : list (string * V)) :
  JsMap.get k (JsMap.set k v m) = Some v.
Proof.
  induction m as [|[k' v'] m IH]; simpl.
  - by rewrite String.eqb_refl.
  - destruct (String.eqb k k') eqn:Hk; simpl.
    + by rewrite String.eqb_refl.
    + by rewrite Hk.
Qed.

Lemma contexts_at_new (path : list string) :
  contexts_at path new_EffectContextTree = [].
Proof. by destruct path. Qed.

(** [add] registers a running context at the node its scope path leads to,
    after the contexts already there. *)
Lemma add_registers (context : CtxRef) (scope : list string) (m : Mem)
    (t : EffectContextTree) :
  is_cancelled m context = false →
  contexts_at scope (EffectContextTree.add context scope m t) =
  contexts_at scope t ++ [context].
Proof.
  intros Hrun. revert t. induction scope as [|head rest IH]; intros t.
  { cbn [EffectContextTree.add]. by rewrite Hrun. }
  cbn [EffectContextTree.add]. rewrite Hrun.
  cbn [contexts_at]. unfold subtree at 1. cbn [tchildren].
  rewrite JsMap_get_set, IH. unfold subtree.
  destruct (tchildren t) as [cs|]; simpl.
  - destruct (JsMap.get head cs) as [child|]; simpl; [done|].
    by rewrite contexts_at_new.
  - by rewrite contexts_at_new.
Qed.

(** ** The store: effects under an id *)

Section named.
Context {State Action : Type}.
Context `{StrictEq State, Truthy Action}.
Implicit Type self : RootStore State Action.

(** Nothing in the store writes [namedEffects]. *)
Lemma processResolvedEffect_namedEffects x pending self :
  namedEffects (RootStore.processResolvedEffect x pending self).2 = namedEffects self.
Proof.
  destruct x; simpl; try done.
  by destruct (EffectContextTree.cancel _ _ _).
Qed.

Lemma processAction_namedEffects action pending self :
  namedEffects (RootStore.processAction action pending self).2 = namedEffects self.
Proof.
  unfold RootStore.processAction.
  destruct (run _ _ action _) as [newState effect].
  destruct (resolveEffect effect [] _) as [units m].
  change (namedEffects self) with
    (namedEffects (RootStore.with_mem (RootStore.with_state self newState) m)).
  generalize (RootStore.with_mem (RootStore.with_state self newState) m).
  revert pending. induction units as [|x units IH]; intros pending self1; [done|].
  cbn [foldl].
  pose proof (processResolvedEffect_namedEffects x pending self1) as Hx.
  destruct (RootStore.processResolvedEffect x pending self1) as [pending' self2].
  simpl in Hx. by rewrite IH.
Qed.

Lemma drain_namedEffects fuel pending self self' :
  RootStore.drain fuel pending self = Some self' →
  namedEffects self' = namedEffects self.
Proof.
  revert pending self. induction fuel as [|fuel IH]; intros pending self.
  - destruct pending as [|next pending]; simpl; [by intros [= <-]|].
    destruct (truthy next); simpl; [done | by intros [= <-]].
  - destruct pending as [|next pending]; simpl; [by intros [= <-]|].
    destruct (truthy next); simpl; [| by intros [= <-]].
    pose proof (processAction_namedEffects next pending self) as Hp.
    destruct (RootStore.processAction next pending self) as [pending' self1].
    intros Hd. apply IH in Hd. simpl in Hp. by rewrite Hd.
Qed.

Lemma send_namedEffects fuel action self self' :
  RootStore.send fuel action self = Some self' →
  namedEffects self' = namedEffects self.
Proof.
  unfold RootStore.send.
  destruct (RootStore.drain fuel [action] self) as [self1|] eqn:Hd; [|done].
  apply drain_namedEffects in Hd.
  destruct (strict_eq _ _); by intros [= <-].
Qed.
End named.

(** C1. The claim: a long-running unit with an id first cancels the context
    registered earlier under that id, so that a second effect under ["poll"]
    sets the first context's flag before the second context produces. The
    store looks the id up in [namedEffects] and registers the new context in
    the tree, but never writes [namedEffects]
    ([processResolvedEffect_namedEffects]). After two dispatches that each
    start a stream under ["poll"], the map is empty, both contexts sit in the
    tree, the first context's flag is unset and its hook has not run; the
    second stream delivers, and after it the first still delivers. *)
Theorem second_poll_leaves_first_running :
  match Samples.polled_twice with
  | Some self =>
      namedEffects self = ∅
      ∧ tcontexts (effectTree self) = [0; 1]
      ∧ is_cancelled (mem self) 0 = false
      ∧ cleanups (mem self) = []
      ∧ state <$> RootStore.deliver 1 1 self = Some 1%Z
      ∧ state <$> (RootStore.deliver 1 1 self ≫= RootStore.deliver 1 0) = Some 2%Z
  | None => False
  end.
Proof. vm_compute. repeat split. Qed.

(* ================================================================== *)
(** * Further properties of the code *)

(** ** [merge], [isEmpty], [cancellationScope] *)

Lemma filter_nonEmpty_all_empty {A} (es : list (Effect A)) :
  forallb Effect.isEmpty es = true →
  filter (λ x, negb (Effect.isEmpty x)) es = [].
Proof.
  induction es as [|e es IH]; [done|]. cbn [forallb]. intros Hall.
  apply andb_prop in Hall as [He Hes]. rewrite filter_nonEmpty_cons, He. auto.
Qed.

(** X1. A merge is empty exactly when all its arguments are. *)
Theorem merge_isEmpty {A} (es : list (Effect A)) :
  Effect.isEmpty (Effect.merge es) = forallb Effect.isEmpty es.
Proof. apply isEmpty_merge. Qed.

(** X2. Merging effects that are all empty, whatever their scopes and
    however deep their empty children, gives [Effect.none] itself. *)
Theorem merge_all_empty {A} (es : list (Effect A)) :
  forallb Effect.isEmpty es = true → Effect.merge es = Effect.none.
Proof.
  intros Hall. unfold Effect.merge. by rewrite filter_nonEmpty_all_empty.
Qed.

Lemma merge_all_empty_witness :
  Effect.merge [Effect.none; mkEffect None [Effect.none] ["a"]] = @Effect.none Z.
Proof.
  apply (merge_all_empty [Effect.none; mkEffect None [Effect.none] ["a"]]).
  reflexivity.
Defined.

(** X3. Merging a list in which exactly one effect is not empty returns that
    effect as it is, its node, children and scope untouched; no parent
    node is built around it. *)
Theorem merge_single_non_empty {A} (pre post : list (Effect A)) (x : Effect A) :
  forallb Effect.isEmpty pre = true →
  forallb Effect.isEmpty post = true →
  Effect.isEmpty x = false →
  Effect.merge (pre ++ x :: post) = x.
Proof.
  intros Hpre Hpost Hx. unfold Effect.merge.
  rewrite filter_app, filter_nonEmpty_cons, Hx.
  by rewrite !filter_nonEmpty_all_empty.
Qed.

Lemma merge_single_non_empty_witness :
  Effect.merge ([Effect.none] ++ Samples.scoped_cancel :: [Effect.none])
  = Samples.scoped_cancel.
Proof.
  apply (merge_single_non_empty [Effect.none] [Effect.none] Samples.scoped_cancel);
    reflexivity.
Defined.

(** X4. Resolving a merge gives the units of its arguments, each resolved
    under the same scope, concatenated in argument order; empty arguments
    contribute nothing and the contexts are allocated in that order. *)
Theorem merge_resolves_in_order {A} (es : list (Effect A)) (ps : list string)
    (m : Mem) :
  resolveEffect (Effect.merge es) ps m = resolve_all es ps m.
Proof. apply resolveEffect_merge. Qed.

Lemma nodes_preorder_non_empty {A} (e : Effect A) ps :
  Effect.isEmpty e = false → nodes_preorder e ps ≠ [].
Proof.
  revert ps. induction e as [n cs sc IH] using Effect_ind'; intros ps.
  rewrite isEmpty_unfold, nodes_preorder_unfold; cbn [node children scope].
  destruct n as [n|]; [done|]. rewrite app_nil_l.
  induction IH as [|c cs IHc _ IHcs]; [done|].
  cbn [forallb]. rewrite fmap_cons. cbn [concat].
  destruct (Effect.isEmpty c) eqn:Hc; simpl.
  - intros Hcs Happ. apply app_eq_nil in Happ as [_ Happ]. by apply IHcs.
  - intros _ Happ. apply app_eq_nil in Happ as [Happ _]. by apply (IHc (ps ++ sc)).
Qed.

Lemma isEmpty_nodes {A} (e : Effect A) (ps : list string) :
  Effect.isEmpty e =
  match nodes_preorder e ps with
  | [] => true
  | _ :: _ => false
  end.
Proof.
  destruct (Effect.isEmpty e) eqn:He.
  - by rewrite nodes_preorder_empty.
  - pose proof (nodes_preorder_non_empty e ps He).
    by destruct (nodes_preorder e ps).
Qed.

(** X5. [isEmpty] holds exactly when the effect has no node anywhere in its
    tree, at any depth; scopes play no part. *)
Theorem isEmpty_iff_no_node {A} (e : Effect A) (ps : list string) :
  Effect.isEmpty e =
  match nodes_preorder e ps with
  | [] => true
  | _ :: _ => false
  end.
Proof. apply isEmpty_nodes. Qed.

Lemma isEmpty_map {A B} (e : Effect A) (f : A → B) :
  Effect.isEmpty (Effect.map e f) = Effect.isEmpty e.
Proof.
  rewrite (isEmpty_nodes _ []), (isEmpty_nodes e []).
  rewrite (nodes_preorder_map e f [] []). by destruct (nodes_preorder e []).
Qed.

(** X6. [map] keeps the shape of the tree: the same kind of node at every
    position and the same children in the same order; so a mapped effect
    is empty exactly when the original is. *)
Theorem map_preserves_shape_and_emptiness {A B} (e : Effect A) (f : A → B) :
  shape (Effect.map e f) = shape e
  ∧ Effect.isEmpty (Effect.map e f) = Effect.isEmpty e.
Proof. split; [apply shape_map | apply isEmpty_map]. Qed.

(** X7. The action values that [e.map(f)] resolves to are [f] applied to
    the action values that [e] resolves to, in the same order, from
    whatever scope and store of contexts each resolution starts. *)
Theorem map_transforms_action_values {A B} (e : Effect A) (f : A → B)
    (ps ps' : list string) (m m' : Mem) :
  action_values (resolveEffect (Effect.map e f) ps m).1 =
  f <$> action_values (resolveEffect e ps' m').1.
Proof.
  rewrite !resolveEffect_nodes, !action_values_resolve_nodes.
  rewrite (nodes_preorder_map e f ps ps').
  induction (nodes_preorder e ps') as [|[n sc] ns IH]; [done|].
  rewrite fmap_cons. destruct n; simpl; first [exact IH | f_equal; exact IH].
Qed.

Lemma nodes_preorder_cancellationScope {A} (e : Effect A) seg ps :
  nodes_preorder (Effect.cancellationScope e seg) ps =
  nodes_preorder e (ps ++ [seg]).
Proof.
  rewrite !nodes_preorder_unfold. unfold Effect.cancellationScope.
  cbn [node children scope]. by rewrite <- app_assoc.
Qed.

(** X8. Tagging an effect with [cancellationScope(segment)] and resolving it
    under a parent scope is resolving the untagged effect under the parent
    scope extended by the segment; tagging does not change emptiness. *)
Theorem cancellationScope_extends_parent_scope {A} (e : Effect A)
    (segment : string) (ps : list string) (m : Mem) :
  resolveEffect (Effect.cancellationScope e segment) ps m =
    resolveEffect e (ps ++ [segment]) m
  ∧ Effect.isEmpty (Effect.cancellationScope e segment) = Effect.isEmpty e.
Proof.
  split.
  - by rewrite !resolveEffect_nodes, nodes_preorder_cancellationScope.
  - rewrite (isEmpty_nodes _ []), (isEmpty_nodes e ([] ++ [segment])).
    by rewrite nodes_preorder_cancellationScope.
Qed.

(** ** Resolution and the store of contexts *)

Lemma long_running_contexts_cons {A} (r : ResolvedEffect A) rs :
  long_running_contexts (r :: rs) =
  match r with
  | RLongRunning _ _ c _ => c :: long_running_contexts rs
  | _ => long_running_contexts rs
  end.
Proof. by destruct r. Qed.

Lemma resolve_nodes_allocates {A} (ns : list (EffectNode A * list string)) m :
  let k := length (filter (λ ns, is_long_running ns.1) ns) in
  (resolve_nodes ns m).2 =
    mkMem (contexts m ++ replicate k new_EffectContext) (cleanups m)
  ∧ long_running_contexts (resolve_nodes ns m).1 = seq (length (contexts m)) k.
Proof.
  revert m. induction ns as [|[n sc] ns IH]; intros m.
  { simpl. rewrite app_nil_r. by destruct m. }
  cbn [resolve_nodes]. rewrite filter_cons. cbn [fst].
  destruct (resolveEffectNode n sc m) as [r m1] eqn:Hr.
  specialize (IH m1). cbn zeta in IH.
  destruct (resolve_nodes ns m1) as [rs m2]. cbn [fst snd] in *.
  destruct IH as [IHm IHc]. rewrite long_running_contexts_cons.
  destruct n; simpl in Hr; inversion Hr; subst; clear Hr;
    rewrite ?decide_True by done; rewrite ?decide_False by (by intros []);
    cbn [length replicate seq]; cbn [contexts cleanups] in *.
  1-3: done.
  all: rewrite length_app, Nat.add_1_r in IHc; rewrite <- app_assoc.
  all: by rewrite IHc.
Qed.

Lemma count_long_running_scope {A} (e : Effect A) ps :
  length (filter (λ ns, is_long_running ns.1) (nodes_preorder e ps))
  = count_long_running e.
Proof.
  unfold count_long_running. generalize (@nil string). revert ps.
  induction e as [n cs sc IH] using Effect_ind'; intros ps ps'.
  rewrite !nodes_preorder_unfold; cbn [node children scope].
  rewrite !filter_app, !length_app. f_equal.
  { destruct n as [n|]; [|done]. rewrite !filter_cons. cbn [fst].
    by destruct (decide (is_long_running n)). }
  generalize (ps ++ sc) (ps' ++ sc). intros p1 p2.
  induction IH as [|c cs IHc _ IHcs]; [done|].
  rewrite !fmap_cons. cbn [concat]. rewrite !filter_app, !length_app.
  by rewrite (IHc p1 p2), IHcs.
Qed.

Lemma resolveEffect_allocates {A} (e : Effect A)
    (ps : list string) (m : Mem) :
  (resolveEffect e ps m).2 =
    mkMem (contexts m ++ replicate (count_long_running e) new_EffectContext)
      (cleanups m)
  ∧ long_running_contexts (resolveEffect e ps m).1 =
      seq (length (contexts m)) (count_long_running e)
  ∧ NoDup (long_running_contexts (resolveEffect e ps m).1).
Proof.
  assert (Hk : length (filter (λ ns, is_long_running ns.1) (nodes_preorder e ps))
               = count_long_running e) by apply count_long_running_scope.
  rewrite resolveEffect_nodes.
  destruct (resolve_nodes_allocates (nodes_preorder e ps) m) as [Hm Hc].
  cbn zeta in Hm, Hc. rewrite Hk in Hm, Hc.
  split; [exact Hm|]. split; [exact Hc|]. rewrite Hc. apply NoDup_seq.
Qed.

(** X9. Resolving an effect never touches the contexts that exist: it appends
    one fresh, running context without hook per single-shot or multi-shot
    node, runs no cleanup hook, and hands these contexts to the long-running
    units in order, so every unit has a context of its own. *)
Theorem resolveEffect_allocates_fresh_contexts {A} (e : Effect A)
    (ps : list string) (m : Mem) :
  (resolveEffect e ps m).2 =
    mkMem (contexts m ++ replicate (count_long_running e) new_EffectContext)
      (cleanups m)
  ∧ long_running_contexts (resolveEffect e ps m).1 =
      seq (length (contexts m)) (count_long_running e)
  ∧ NoDup (long_running_contexts (resolveEffect e ps m).1).
Proof. apply resolveEffect_allocates. Qed.

(** ** Mapped producers *)

Lemma consume_finished {A} (evs : list Event) (c : EffectContext) :
  yields evs c (@Finished A) = [].
Proof.
  unfold yields. revert c. induction evs as [|[|] evs IH]; intros c; [done|..].
  - cbn [consume]. destruct (EffectContext.cancel c) as [c' hs].
    specialize (IH c'). by destruct (consume evs c' Finished) as [[ys hs'] c''].
  - cbn [consume pull]. specialize (IH c).
    by destruct (consume evs c Finished) as [[ys hs'] c''].
Qed.

Lemma yields_cancel {A} (evs : list Event) (c : EffectContext) (r : Running A) :
  yields (Cancel :: evs) c r = [].
Proof.
  unfold yields. cbn [consume].
  pose proof (cancel_sets_flag c) as Hf.
  destruct (EffectContext.cancel c) as [c' hs]. simpl in Hf.
  by rewrite consume_cancelled.
Qed.

Lemma yields_pull {A} (evs : list Event) (c : EffectContext) (r : Running A) :
  yields (Pull :: evs) c r =
  option_list (pull r (isCancelled c)).1 ++ yields evs c (pull r (isCancelled c)).2.
Proof.
  unfold yields. cbn [consume]. destruct (pull r (isCancelled c)) as [y r'].
  cbn [fst snd]. destruct (consume evs c r') as [[ys hs] c']. reflexivity.
Qed.

Lemma yields_cancelled {A} (evs : list Event) (c : EffectContext) (r : Running A) :
  isCancelled c = true → yields evs c r = [].
Proof. intros Hc. unfold yields. by rewrite consume_cancelled. Qed.

Lemma mapped_generator_yields {A B} (g : Generator A) (f : A → B) id id'
    (g' : Generator B) :
  mapEffectNode (NGenerator id g) f = NGenerator id' g' →
  ∀ evs c,
    yields evs c (launch (StartGenerator g')) =
    f <$> yields evs c (launch (StartGenerator g)).
Proof.
  intros [= <- <-] evs c. cbn [launch].
  set (g' := mkGenerator (gen_state g) (gen_installs g) (gen_start g) _).
  change (gen_start g') with (gen_start g).
  assert (Hstep : ∀ (s : gen_state g) b,
            gen_next g' s b =
            match gen_next g s b with
            | Some (output, s') => if b then None else Some (f output, s')
            | None => None
            end) by done.
  assert (Hall : ∀ (s : gen_state g),
            yields evs c (Iterating g' s) = f <$> yields evs c (Iterating g s)).
  2:{ apply Hall. }
  revert c. induction evs as [|[|] evs IH]; intros c s; [done|..].
  { by rewrite !yields_cancel. }
  rewrite !yields_pull. cbn [pull]. rewrite Hstep.
  destruct (gen_next g s (isCancelled c)) as [[output s']|] eqn:Hnext; cbn [fst snd].
  - destruct (isCancelled c) eqn:Hc; cbn [negb fst snd option_list].
    + rewrite consume_finished. by rewrite yields_cancelled.
    + rewrite fmap_app. f_equal. apply IH.
  - by rewrite !consume_finished.
Qed.

Lemma mapped_promise_yields {A B} (p : Promise A) (f : A → B) evs c :
  yields evs c (launch (StartPromise (mkPromise (promise_installs p)
                                        (f <$> promise_result p)))) =
  f <$> yields evs c (launch (StartPromise p)).
Proof.
  cbn [launch promise_result]. revert c.
  induction evs as [|[|] evs IH]; intros c; [done|..].
  { by rewrite !yields_cancel. }
  rewrite !yields_pull. destruct (promise_result p) as [result|]; cbn [fmap option_fmap option_map pull].
  - destruct (isCancelled c); cbn [negb fst snd option_list];
      by rewrite !consume_finished.
  - cbn [fst snd option_list app]. apply IH.
Qed.

(** X10. Mapping a single-shot or multi-shot node maps what its resolved
    unit delivers: over any run of pulls and cancellations, the sequence
    started from the mapped node yields [transform] of each element the
    sequence started from the original node yields, and stops where it
    stops. Other nodes resolve to units without a start, mapped or not. *)
Theorem mapped_producer_yields_transformed {A B} (n : EffectNode A) (f : A → B)
    (scope : list string) (m : Mem) (evs : list Event) (c : EffectContext) :
  (λ start, yields evs c (launch start))
    <$> start_of (resolveEffectNode (mapEffectNode n f) scope m).1
  = (λ start, f <$> yields evs c (launch start))
    <$> start_of (resolveEffectNode n scope m).1.
Proof.
  destruct n as [s|i|v|i p|i g]; try done.
  - cbn. f_equal. apply mapped_promise_yields.
  - cbn -[yields launch]. f_equal.
    by apply (mapped_generator_yields g f i i).
Qed.

(** ** The context tree, at any depth *)

Lemma JsMap_set_same {V} (k : string) (v : V) (m : list (string * V)) :
  JsMap.get k m = Some v → JsMap.set k v m = m.
Proof.
  induction m as [|[k' v'] m IH]; simpl; [done|].
  destruct (String.eqb k k') eqn:Hk.
  - apply String.eqb_eq in Hk as <-. by intros [= ->].
  - intros Hget. by rewrite IH.
Qed.

Lemma JsMap_get_elem_of {V} (k : string) (v : V) (m : list (string * V)) :
  JsMap.get k m = Some v → (k, v) ∈ m.
Proof.
  induction m as [|[k' v'] m IH]; simpl; [done|].
  destruct (String.eqb k k') eqn:Hk.
  - apply String.eqb_eq in Hk as <-. intros [= ->]. apply list_elem_of_here.
  - intros Hget. apply list_elem_of_further. auto.
Qed.

Lemma all_contexts_unfold (t : EffectContextTree) :
  all_contexts t =
  tcontexts t ++
  match tchildren t with
  | None => []
  | Some ch => concat ((λ kv, all_contexts kv.2) <$> ch)
  end.
Proof.
  destruct t as [cs [ch|]]; [|done]. cbn [all_contexts tcontexts tchildren].
  f_equal. induction ch as [|[k c] ch IH]; [done|].
  rewrite fmap_cons. cbn [concat snd]. by rewrite <- IH.
Qed.

Lemma all_contexts_child (t : EffectContextTree) ch k c r :
  tchildren t = Some ch → (k, c) ∈ ch → r ∈ all_contexts c → r ∈ all_contexts t.
Proof.
  intros Hch Hin Hr. rewrite all_contexts_unfold, Hch.
  apply elem_of_app. right. clear Hch.
  induction ch as [|kv ch IH]; [by apply not_elem_of_nil in Hin|].
  rewrite fmap_cons. cbn [concat]. apply elem_of_app.
  apply elem_of_cons in Hin as [<-|Hin]; [by left | right; auto].
Qed.

Lemma cancel_path_flags (path : list string) (t : EffectContextTree) (m : Mem) r :
  is_cancelled (EffectContextTree.cancel path t m).2 r =
  is_cancelled m r || (bool_decide (r ∈ contexts_under path t) && allocated m r).
Proof.
  revert t. induction path as [|head rest IH]; intros t.
  { cbn [EffectContextTree.cancel]. rewrite cancelSelf_all. cbn [snd].
    apply is_cancelled_cancel_all. }
  assert (Hnone : is_cancelled m r =
            is_cancelled m r || (bool_decide (r ∈ @nil CtxRef) && allocated m r)).
  { rewrite bool_decide_eq_false_2 by apply not_elem_of_nil.
    by rewrite orb_false_r. }
  cbn [EffectContextTree.cancel]. unfold contexts_under. cbn [node_at].
  unfold subtree. destruct (tchildren t) as [cs|]; [|exact Hnone].
  destruct (JsMap.get head cs) as [child|]; [|exact Hnone].
  specialize (IH child). unfold contexts_under in IH.
  destruct (EffectContextTree.cancel rest child m) as [child' m'].
  cbn [snd] in IH. by destruct rest.
Qed.

Lemma cancel_path_discards (path : list string) (t : EffectContextTree) (m : Mem) :
  match path with
  | [] => (EffectContextTree.cancel path t m).1 = new_EffectContextTree
  | _ :: _ => node_at path (EffectContextTree.cancel path t m).1 = None
  end.
Proof.
  revert t. induction path as [|head rest IH]; intros t.
  { cbn [EffectContextTree.cancel]. by rewrite cancelSelf_all. }
  cbn [EffectContextTree.cancel].
  destruct (tchildren t) as [cs|] eqn:Hch.
  2:{ cbn [fst node_at]. unfold subtree. by rewrite Hch. }
  destruct (JsMap.get head cs) as [child|] eqn:Hget.
  2:{ cbn [fst node_at]. unfold subtree. by rewrite Hch, Hget. }
  specialize (IH child).
  destruct (EffectContextTree.cancel rest child m) as [child' m'].
  cbn [fst] in IH. destruct rest as [|seg rest].
  - cbn [fst node_at]. unfold subtree. cbn [tchildren].
    by rewrite JsMap_get_delete.
  - cbn [fst]. cbn [node_at] in *. unfold subtree at 1. cbn [tchildren].
    by rewrite JsMap_get_set.
Qed.

(** X11. At any depth, cancelling a path sets the flag of exactly the
    contexts registered at or below the node the path leads to: a context's
    flag afterwards is its flag before, or set if the context is registered
    there. Nothing stays registered at or below that path. *)
Theorem cancel_path_is_exact (path : list string) (t : EffectContextTree)
    (m : Mem) :
  (∀ r, is_cancelled (EffectContextTree.cancel path t m).2 r =
        is_cancelled m r
        || (bool_decide (r ∈ contexts_under path t) && allocated m r))
  ∧ contexts_under path (EffectContextTree.cancel path t m).1 = [].
Proof.
  split; [intros r; apply cancel_path_flags|].
  pose proof (cancel_path_discards path t m) as Hd. unfold contexts_under.
  destruct path as [|head rest].
  - by rewrite Hd.
  - by rewrite Hd.
Qed.

Lemma cancel_missing_path (path : list string) (t : EffectContextTree)
    (m : Mem) :
  node_at path t = None → EffectContextTree.cancel path t m = (t, m).
Proof.
  revert t. induction path as [|head rest IH]; intros t; [done|].
  cbn [node_at EffectContextTree.cancel]. unfold subtree.
  destruct (tchildren t) as [cs|] eqn:Hch; [|done].
  destruct (JsMap.get head cs) as [child|] eqn:Hget; [|done].
  intros Hnone. rewrite (IH child Hnone).
  destruct rest as [|seg rest]; [done|].
  rewrite JsMap_set_same by done. destruct t as [tc tch]. simpl in Hch. by subst.
Qed.

(** X12. Cancelling a path that leads to no node of the tree changes
    nothing: the tree is returned as it is, no flag is set, no hook runs. *)
Theorem cancel_missing_path_is_noop (path : list string) (t : EffectContextTree)
    (m : Mem) :
  node_at path t = None → EffectContextTree.cancel path t m = (t, m).
Proof. apply cancel_missing_path. Qed.

Lemma cancel_missing_path_is_noop_witness :
  EffectContextTree.cancel ["a"; "z"] Samples.sample_tree Samples.sample_mem
  = (Samples.sample_tree, Samples.sample_mem).
Proof.
  apply (cancel_missing_path_is_noop ["a"; "z"] Samples.sample_tree
           Samples.sample_mem).
  reflexivity.
Defined.

(** X13. Cancelling the same path a second time changes nothing more: the
    first call has discarded what was there. *)
Theorem cancel_path_idempotent (path : list string) (t : EffectContextTree)
    (m : Mem) :
  EffectContextTree.cancel path (EffectContextTree.cancel path t m).1
    (EffectContextTree.cancel path t m).2
  = EffectContextTree.cancel path t m.
Proof.
  pose proof (cancel_path_discards path t m) as Hd.
  destruct (EffectContextTree.cancel path t m) as [t' m'] eqn:Hc. cbn [fst snd] in *.
  destruct path as [|head rest].
  - by rewrite Hd.
  - by apply cancel_missing_path.
Qed.

Lemma add_cancelled (context : CtxRef) (scope : list string) (m : Mem)
    (t : EffectContextTree) :
  is_cancelled m context = true → EffectContextTree.add context scope m t = t.
Proof. intros Hc. destruct scope; cbn [EffectContextTree.add]; by rewrite Hc. Qed.

Lemma add_frame (context : CtxRef) (scope path : list string) (m : Mem)
    (t : EffectContextTree) :
  path ≠ scope →
  contexts_at path (EffectContextTree.add context scope m t) = contexts_at path t.
Proof.
  destruct (is_cancelled m context) eqn:Hrun.
  { by rewrite add_cancelled. }
  revert path t. induction scope as [|head srest IH]; intros path t Hne.
  { cbn [EffectContextTree.add]. rewrite Hrun. by destruct path. }
  cbn [EffectContextTree.add]. rewrite Hrun.
  destruct path as [|seg prest]; [done|]. cbn [contexts_at].
  unfold subtree. cbn [tchildren].
  destruct (String.eqb seg head) eqn:Hseg.
  - apply String.eqb_eq in Hseg as ->. rewrite JsMap_get_set.
    rewrite IH by congruence.
    destruct (tchildren t) as [cs|]; simpl.
    + destruct (JsMap.get head cs); simpl; [done | apply contexts_at_new].
    + apply contexts_at_new.
  - rewrite JsMap_get_set_ne by done. by destruct (tchildren t).
Qed.

(** X14. [add] registers a context that is running at the node its scope
    path leads to, after the contexts already there, creating the nodes on
    the way as needed, and leaves the contexts at every other path as they
    were; a context that is already cancelled is not registered at all. *)
Theorem add_registers_at_scope_only (context : CtxRef) (scope : list string)
    (m : Mem) (t : EffectContextTree) :
  (if is_cancelled m context
   then EffectContextTree.add context scope m t = t
   else contexts_at scope (EffectContextTree.add context scope m t)
        = contexts_at scope t ++ [context])
  ∧ ∀ path, (if decide (path = scope) then True
             else contexts_at path (EffectContextTree.add context scope m t)
                  = contexts_at path t).
Proof.
  split.
  - destruct (is_cancelled m context) eqn:Hc.
    + by apply add_cancelled.
    + by apply add_registers.
  - intros path. case_decide; [done|]. by apply add_frame.
Qed.

Lemma add_elem_of_all_contexts (context : CtxRef) (scope : list string) (m : Mem)
    (t : EffectContextTree) :
  is_cancelled m context = false →
  context ∈ all_contexts (EffectContextTree.add context scope m t).
Proof.
  intros Hrun. revert t. induction scope as [|head rest IH]; intros t.
  - cbn [EffectContextTree.add]. rewrite Hrun, all_contexts_unfold.
    cbn [tcontexts]. apply elem_of_app. left. apply elem_of_app. right.
    apply list_elem_of_singleton. done.
  - cbn [EffectContextTree.add]. rewrite Hrun.
    eapply all_contexts_child; [done| |apply IH].
    apply JsMap_get_elem_of, JsMap_get_set.
Qed.

Lemma add_elem_of_contexts_under (context : CtxRef) (prefix rest : list string)
    (m : Mem) (t : EffectContextTree) :
  is_cancelled m context = false →
  context ∈ contexts_under prefix
              (EffectContextTree.add context (prefix ++ rest) m t).
Proof.
  intros Hrun. revert t. induction prefix as [|seg prefix IH]; intros t.
  - unfold contexts_under. cbn [node_at app]. by apply add_elem_of_all_contexts.
  - cbn [app EffectContextTree.add]. rewrite Hrun.
    unfold contexts_under. cbn [node_at]. unfold subtree. cbn [tchildren].
    rewrite JsMap_get_set. apply IH.
Qed.

(** X15. A context that has been added under a scope path is cancelled by
    cancelling that path or any prefix of it, the empty path included. *)
Theorem add_then_cancel_prefix (context : CtxRef) (prefix rest : list string)
    (m : Mem) (t : EffectContextTree) :
  allocated m context = true →
  is_cancelled
    (EffectContextTree.cancel prefix
       (EffectContextTree.add context (prefix ++ rest) m t) m).2 context
  = true.
Proof.
  intros Halloc. rewrite cancel_path_flags, Halloc, andb_true_r.
  destruct (is_cancelled m context) eqn:Hrun; [done|]. simpl.
  apply bool_decide_eq_true. by apply add_elem_of_contexts_under.
Qed.

Lemma add_then_cancel_prefix_witness :
  is_cancelled
    (EffectContextTree.cancel ["a"]
       (EffectContextTree.add 3 (["a"] ++ ["c"; "d"]) Samples.sample_mem
          Samples.sample_tree) Samples.sample_mem).2 3
  = true.
Proof.
  apply (add_then_cancel_prefix 3 ["a"] ["c"; "d"] Samples.sample_mem
           Samples.sample_tree).
  reflexivity.
Defined.

(** ** Case paths *)

(** X16. For a case path built by [casePath(kind)]: extracting from what was
    embedded gives the value back; embedding what was extracted gives the
    root back; and a root of another kind extracts to nothing. *)
Theorem casePath_round_trip {V} (k k' : string) (v : V) (root : WithKindValue V) :
  extract (casePath k) (embed (casePath k) v) = Some v
  ∧ default root (embed (casePath k) <$> extract (casePath k) root) = root
  ∧ extract (casePath k') (embed (casePath k) v)
    = if String.eqb k k' then Some v else None.
Proof.
  split; [|split].
  - simpl. by rewrite String.eqb_refl.
  - destruct root as [rk rv]. simpl. destruct (String.eqb rk k) eqn:Hk; [|done].
    apply String.eqb_eq in Hk as ->. done.
  - done.
Qed.

(** ** Scope *)

(** X17. A [Scope] does nothing, and does not run its child, when the action
    does not extract to a child action, and also, with a case-path state
    accessor, when the state is not in the child's case. An extracted value
    that is falsy (the number 0, the empty string) counts as not extracted:
    the state comes back as it was with the empty effect. *)
Theorem Scope_ignores_what_it_cannot_extract
    {ParentState ParentAction LocalState LocalAction : Type}
    `{Truthy LocalState, Truthy LocalAction}
    (self : Scope ParentState ParentAction LocalState LocalAction)
    (state : ParentState) (action : ParentAction) (d : DependencyValues) :
  present (extract (scope_action self) action) = None
  ∨ (∃ path, scope_state self = inr path ∧ present (extract path state) = None) →
  Scope._reduce self state action d = (state, Effect.none).
Proof.
  unfold Scope._reduce. intros [Haction|(path & -> & Hstate)].
  - rewrite Haction. destruct (scope_state self) as [kp|cp]; [done|].
    by destruct (present (extract cp state)).
  - by rewrite Hstate.
Qed.

Lemma Scope_ignores_what_it_cannot_extract_witness :
  extract (scope_action Samples.loaded_scope) (mkKindValue "child" 0%Z) = Some 0%Z
  ∧ Scope._reduce Samples.loaded_scope (mkKindValue "loaded" 1%Z)
      (mkKindValue "child" 0%Z) new_DependencyValues
    = (mkKindValue "loaded" 1%Z, Effect.none).
Proof.
  split; [reflexivity|].
  apply (Scope_ignores_what_it_cannot_extract Samples.loaded_scope).
  left. reflexivity.
Defined.

(** ** CombineReducers, nested *)

Lemma CombineReducers_reduce_eq {State Action}
    (reducers : list (Reducer State Action)) s a d :
  CombineReducers._reduce reducers s a d =
  (state_after reducers s a d, Effect.merge (sibling_effects reducers s a d)).
Proof. unfold CombineReducers._reduce. by rewrite CombineReducers_loop. Qed.

Lemma state_after_app {State Action} (rs1 rs2 : list (Reducer State Action)) s a d :
  state_after (rs1 ++ rs2) s a d = state_after rs2 (state_after rs1 s a d) a d.
Proof. unfold state_after. apply foldl_app. Qed.

Lemma sibling_effects_app {State Action} (rs1 rs2 : list (Reducer State Action))
    s a d :
  sibling_effects (rs1 ++ rs2) s a d =
  sibling_effects rs1 s a d ++ sibling_effects rs2 (state_after rs1 s a d) a d.
Proof.
  unfold sibling_effects. rewrite imap_app. f_equal.
  - apply imap_ext. intros i r Hi. apply lookup_lt_Some in Hi.
    by rewrite take_app_le by lia.
  - apply imap_ext. intros i r _. unfold compose.
    rewrite take_app_add'  by done. by rewrite state_after_app.
Qed.

(** X18. Combining reducers is associative in what it does: combining
    [rs1 ++ rs2] and combining the two combinations of [rs1] and of [rs2]
    return the same state and effects that resolve to the same units. *)
Theorem CombineReducers_nests {State Action}
    (rs1 rs2 : list (Reducer State Action)) (s : State) (a : Action)
    (d : DependencyValues) :
  (CombineReducers._reduce (rs1 ++ rs2) s a d).1 =
    (CombineReducers._reduce
       [CombineReducers.reducer rs1; CombineReducers.reducer rs2] s a d).1
  ∧ ∀ ps m,
      resolveEffect (CombineReducers._reduce (rs1 ++ rs2) s a d).2 ps m =
      resolveEffect
        (CombineReducers._reduce
           [CombineReducers.reducer rs1; CombineReducers.reducer rs2] s a d).2
        ps m.
Proof.
  rewrite (CombineReducers_reduce_eq (rs1 ++ rs2)).
  rewrite (CombineReducers_reduce_eq [_; _]). cbn [fst snd].
  assert (Hstate : state_after
            [CombineReducers.reducer rs1; CombineReducers.reducer rs2] s a d
          = state_after rs2 (state_after rs1 s a d) a d).
  { unfold state_after at 1. cbn [foldl CombineReducers.reducer run].
    by rewrite !CombineReducers_reduce_eq. }
  assert (Heffects : sibling_effects
            [CombineReducers.reducer rs1; CombineReducers.reducer rs2] s a d
          = [Effect.merge (sibling_effects rs1 s a d);
             Effect.merge (sibling_effects rs2 (state_after rs1 s a d) a d)]).
  { unfold sibling_effects at 1. cbn [imap take]. unfold compose. cbn [take].
    unfold state_after at 1 2. cbn [foldl CombineReducers.reducer run].
    by rewrite !CombineReducers_reduce_eq. }
  rewrite Hstate, Heffects.
  split; [apply state_after_app|]. intros ps m.
  rewrite !resolveEffect_merge, sibling_effects_app, resolve_all_app.
  cbn [resolve_all]. rewrite !resolveEffect_merge.
  destruct (resolve_all (sibling_effects rs1 s a d) ps m) as [u1 m1].
  rewrite resolveEffect_merge.
  destruct (resolve_all _ ps m1) as [u2 m2]. by rewrite app_nil_r.
Qed.

(** ** Conditional mounting: absent child, child-driven change *)

(** X19. When the optional slot is empty (or holds a falsy child) an
    [_IfLetReducer] does not run the child: the child step returns the state
    as it is with the empty effect, warning exactly when the action was
    meant for the child; the whole reducer then returns the parent
    reducer's state, and its effect resolves to the parent's units alone,
    so filling an empty slot never emits a cancel-scope. *)
Theorem IfLet_absent_child_is_skipped {State Action ChildState ChildAction : Type}
    `{Truthy ChildState, Truthy ChildAction}
    (self : _IfLetReducer State Action ChildState ChildAction)
    (s : State) (a : Action) (d : DependencyValues) :
  present (get (iflet_state self) s) = None →
  _IfLetReducer.reduceChild self s a d = (s, Effect.none)
  ∧ _IfLetReducer.reduceChild_warns self s a
    = bool_decide (is_Some (present (extract (iflet_action self) a)))
  ∧ (_IfLetReducer._reduce self s a d).1 = (run (iflet_parent self) s a d).1
  ∧ ∀ ps m,
      resolveEffect (_IfLetReducer._reduce self s a d).2 ps m =
      resolveEffect (run (iflet_parent self) s a d).2 ps m.
Proof.
  intros Hslot.
  assert (Hchild : _IfLetReducer.reduceChild self s a d = (s, Effect.none)).
  { unfold _IfLetReducer.reduceChild. rewrite Hslot.
    by destruct (present (extract _ a)). }
  split; [exact Hchild|]. split.
  { unfold _IfLetReducer.reduceChild_warns. rewrite Hslot.
    by destruct (present (extract _ a)). }
  pose proof (IfLet_reduce_eq self s a d) as Heq. cbn zeta in Heq.
  rewrite Hchild in Heq. cbn [fst snd] in Heq.
  assert (Hold : _IfLetReducer.getChildId self s = None).
  { unfold _IfLetReducer.getChildId. by rewrite Hslot. }
  rewrite Hold in Heq. cbn [teardown app] in Heq. rewrite Heq. cbn [fst snd].
  split; [done|]. intros ps m. rewrite resolveEffect_merge. cbn [resolve_all].
  rewrite resolveEffect_none.
  destruct (resolveEffect _ ps m) as [u m1]. by rewrite app_nil_r.
Qed.

Lemma IfLet_absent_child_is_skipped_witness :
  _IfLetReducer.reduceChild Samples.slot_feature None
    (mkKindValue "child" "go") new_DependencyValues = (None, Effect.none)
  ∧ _IfLetReducer.reduceChild_warns Samples.slot_feature None
      (mkKindValue "child" "go") = true
  ∧ (_IfLetReducer._reduce Samples.slot_feature None
       (mkKindValue "replace" "y") new_DependencyValues).1 = Some "y"
  ∧ (resolveEffect
       (_IfLetReducer._reduce Samples.slot_feature None
          (mkKindValue "replace" "y") new_DependencyValues).2 [] empty_Mem).1 = [].
Proof.
  pose proof (IfLet_absent_child_is_skipped Samples.slot_feature None
                (mkKindValue "child" "go") new_DependencyValues eq_refl)
    as (Hchild & Hwarn & _ & _).
  pose proof (IfLet_absent_child_is_skipped Samples.slot_feature None
                (mkKindValue "replace" "y") new_DependencyValues eq_refl)
    as (_ & _ & Hstate & Heffect).
  split; [exact Hchild|]. split; [exact Hwarn|]. split; [exact Hstate|].
  by rewrite Heffect.
Defined.

(** X20. Whether an [_IfCaseLetReducer] emits a cancel-scope is decided by
    the parent step alone: the identity is first read after the child has
    run, so when the parent reducer returns the state it was given, the
    result is the child step's state and the units of the child's and the
    parent's effects, with no cancel-scope added, even if the child changed
    its own identity. *)
Theorem IfCaseLet_child_driven_change_is_not_torn_down
    {State Action ChildState ChildAction : Type}
    `{Truthy ChildState, Truthy ChildAction}
    (self : _IfCaseLetReducer State Action ChildState ChildAction)
    (s : State) (a : Action) (d : DependencyValues) :
  (run (ifcase_parent self) (_IfCaseLetReducer.reduceChild self s a d).1 a d).1
    = (_IfCaseLetReducer.reduceChild self s a d).1 →
  (_IfCaseLetReducer._reduce self s a d).1
    = (_IfCaseLetReducer.reduceChild self s a d).1
  ∧ ∀ ps m,
      resolveEffect (_IfCaseLetReducer._reduce self s a d).2 ps m =
      resolve_all
        [(_IfCaseLetReducer.reduceChild self s a d).2;
         (run (ifcase_parent self)
            (_IfCaseLetReducer.reduceChild self s a d).1 a d).2] ps m.
Proof.
  intros Hparent.
  pose proof (IfCaseLet_reduce_eq self s a d) as Heq. cbn zeta in Heq.
  rewrite Hparent in Heq.
  assert (Hno : ∀ o : option string, @teardown Action o o = []).
  { intros [x|]; [|done]. unfold teardown. by rewrite decide_True. }
  rewrite Hno, app_nil_r in Heq. rewrite Heq. cbn [fst snd].
  split; [done|]. intros ps m. apply resolveEffect_merge.
Qed.

Lemma IfCaseLet_child_driven_change_is_not_torn_down_witness :
  (_IfCaseLetReducer._reduce Samples.renaming_feature (Some "x")
     (mkKindValue "child" "y") new_DependencyValues).1 = Some "y"
  ∧ (resolveEffect
       (_IfCaseLetReducer._reduce Samples.renaming_feature (Some "x")
          (mkKindValue "child" "y") new_DependencyValues).2 [] empty_Mem).1 = [].
Proof.
  destruct (IfCaseLet_child_driven_change_is_not_torn_down
              Samples.renaming_feature (Some "x") (mkKindValue "child" "y")
              new_DependencyValues eq_refl) as [Hstate Heffect].
  split; [exact Hstate|]. by rewrite Heffect.
Defined.

(** ** The store: the queue *)

(** X21. [send] stops at a falsy action (the number 0, the empty string):
    the loop breaks without running the reducer, the actions still pending
    behind it are dropped, and the store is left as it was. *)
Theorem send_drops_falsy_action {State Action : Type}
    `{StrictEq State, Truthy Action}
    (fuel : nat) (next : Action) (rest : list Action)
    (self : RootStore State Action) :
  truthy next = false →
  RootStore.drain fuel (next :: rest) self = Some self
  ∧ RootStore.send fuel next self
    = Some (if strict_eq (state self) (state self) then self
            else RootStore.notify self).
Proof.
  intros Hfalsy.
  assert (Hd : ∀ rest, RootStore.drain fuel (next :: rest) self = Some self).
  { intros rest'. destruct fuel; simpl; by rewrite Hfalsy. }
  split; [apply Hd|]. unfold RootStore.send. rewrite Hd.
  by destruct (strict_eq _ _).
Qed.

Lemma send_drops_falsy_action_witness :
  RootStore.drain 5 [0%Z; 7%Z; 8%Z] Samples.adder_store = Some Samples.adder_store
  ∧ RootStore.send 5 0%Z Samples.adder_store = Some Samples.adder_store.
Proof.
  destruct (send_drops_falsy_action 5 0%Z [7%Z; 8%Z] Samples.adder_store eq_refl)
    as [Hdrain Hsend].
  split; [exact Hdrain | exact Hsend].
Defined.

(** X22. Processing an action whose reducer returns an empty effect only
    replaces the state: the queue, the tree, the contexts, the tasks, the
    subscribers and the log are as before. *)
Theorem processAction_empty_effect_only_sets_state {State Action : Type}
    `{StrictEq State, Truthy Action}
    (action : Action) (pending : list Action) (self : RootStore State Action) :
  Effect.isEmpty
    (run (reducer self) (state self) action new_DependencyValues).2 = true →
  RootStore.processAction action pending self =
  (pending,
   RootStore.with_state self
     (run (reducer self) (state self) action new_DependencyValues).1).
Proof.
  intros Hempty. unfold RootStore.processAction.
  destruct (run _ _ action _) as [newState effect]. cbn [fst snd] in *.
  by rewrite (resolveEffect_empty effect) by done.
Qed.

Lemma processAction_empty_effect_only_sets_state_witness :
  RootStore.processAction 5%Z [7%Z] Samples.adder_store =
  ([7%Z], RootStore.with_state Samples.adder_store 5%Z).
Proof.
  apply (processAction_empty_effect_only_sets_state 5%Z [7%Z] Samples.adder_store).
  reflexivity.
Defined.

(** ** The store: subscribers by id *)

Lemma JsMap_get_set_any {V} (k k0 : string) (v : V) (m : list (string * V)) :
  JsMap.get k0 (JsMap.set k v m) =
  if String.eqb k0 k then Some v else JsMap.get k0 m.
Proof.
  destruct (String.eqb k0 k) eqn:Hk.
  - apply String.eqb_eq in Hk as ->. apply JsMap_get_set.
  - by apply JsMap_get_set_ne.
Qed.

Lemma JsMap_get_delete_any {V} (k k0 : string) (m : list (string * V)) :
  JsMap.get k0 (JsMap.delete k m) =
  if String.eqb k0 k then None else JsMap.get k0 m.
Proof.
  destruct (String.eqb k0 k) eqn:Hk.
  - apply String.eqb_eq in Hk as ->. apply JsMap_get_delete.
  - by apply JsMap_get_delete_ne.
Qed.

Lemma JsMap_set_keys {V} (k : string) (v : V) (m : list (string * V)) :
  (JsMap.set k v m).*1 = if decide (k ∈ m.*1) then m.*1 else m.*1 ++ [k].
Proof.
  induction m as [|[k' v'] m IH]; [done|]. cbn [JsMap.set].
  destruct (String.eqb k k') eqn:Hk.
  - apply String.eqb_eq in Hk as <-. rewrite !fmap_cons. cbn [fst].
    rewrite decide_True; [done | apply list_elem_of_here].
  - apply String.eqb_neq in Hk. rewrite !fmap_cons, IH. cbn [fst].
    destruct (decide (k ∈ m.*1)) as [Hin|Hnin].
    + rewrite decide_True; [done | by apply list_elem_of_further].
    + rewrite decide_False; [done|]. rewrite elem_of_cons. by intros [->|?].
Qed.

Lemma JsMap_delete_keys {V} (k : string) (m : list (string * V)) :
  (JsMap.delete k m).*1 = filter (λ k', k' ≠ k) m.*1.
Proof.
  unfold JsMap.delete. induction m as [|[k' v'] m IH]; [done|].
  rewrite fmap_cons, !filter_cons. cbn [fst].
  destruct (String.eqb k k') eqn:Hk.
  - apply String.eqb_eq in Hk as <-. rewrite decide_False by (simpl; auto).
    rewrite decide_False by auto. exact IH.
  - apply String.eqb_neq in Hk. rewrite decide_True by done.
    rewrite decide_True by auto. by rewrite fmap_cons, IH.
Qed.

(** X23. Subscribers are looked up by id: after [subscribe(id, callback)]
    the id leads to that callback, replacing the one it led to; after
    [unsubscribe(id)] it leads to none; every other id leads where it did.
    Unsubscribing an id that is not registered changes nothing. *)
Theorem subscribe_unsubscribe_by_id {State Action : Type}
    (id id' : string) (callback : Callback) (self : RootStore State Action) :
  JsMap.get id' (callbacks (RootStore.subscribe id callback self))
    = (if String.eqb id' id then Some callback
       else JsMap.get id' (callbacks self))
  ∧ JsMap.get id' (callbacks (RootStore.unsubscribe id self))
    = (if String.eqb id' id then None else JsMap.get id' (callbacks self))
  ∧ (if decide (id ∈ (callbacks self).*1) then True
     else callbacks (RootStore.unsubscribe id self) = callbacks self).
Proof.
  split; [apply JsMap_get_set_any|]. split; [apply JsMap_get_delete_any|].
  case_decide as Hin; [done|]. cbn [RootStore.unsubscribe callbacks RootStore.with_callbacks].
  unfold JsMap.delete. induction (callbacks self) as [|[k v] l IH]; [done|].
  rewrite fmap_cons, not_elem_of_cons in Hin. destruct Hin as [Hne Hin].
  rewrite filter_cons. simpl in Hne. apply String.eqb_neq in Hne.
  rewrite decide_True by (simpl; by rewrite Hne). by rewrite IH.
Qed.

(** X24. The ids of the subscribers stay pairwise distinct: a store just
    built has none, and [subscribe] and [unsubscribe] keep them distinct
    (subscribing under a registered id adds no entry), so a notification
    calls at most one callback per id. *)
Theorem subscriber_ids_stay_unique {State Action : Type}
    (id : string) (callback : Callback) (self : RootStore State Action) :
  NoDup (callbacks self).*1 →
  NoDup (callbacks (RootStore.subscribe id callback self)).*1
  ∧ NoDup (callbacks (RootStore.unsubscribe id self)).*1
  ∧ length (callbacks (RootStore.subscribe id callback self))
    = (if decide (id ∈ (callbacks self).*1) then length (callbacks self)
       else S (length (callbacks self))).
Proof.
  intros Hnd. cbn [RootStore.subscribe RootStore.unsubscribe callbacks
                   RootStore.with_callbacks].
  split; [|split].
  - rewrite JsMap_set_keys. case_decide as Hin; [done|].
    apply NoDup_app. split; [done|]. split; [|apply NoDup_singleton].
    intros k Hk ->%list_elem_of_singleton. done.
  - rewrite JsMap_delete_keys. by apply NoDup_filter.
  - rewrite <- (length_fmap fst (JsMap.set _ _ _)), JsMap_set_keys.
    case_decide; rewrite ?length_app, length_fmap; simpl; lia.
Qed.

Lemma subscriber_ids_stay_unique_witness :
  NoDup (callbacks (RootStore.subscribe "a" "render-again" Samples.adder_store)).*1
  ∧ NoDup (callbacks (RootStore.unsubscribe "a" Samples.adder_store)).*1
  ∧ length (callbacks (RootStore.subscribe "a" "render-again" Samples.adder_store))
    = 2.
Proof.
  apply (subscriber_ids_stay_unique "a" "render-again" Samples.adder_store).
  apply (bool_decide_unpack (NoDup _)). vm_compute. exact I.
Defined.

(** ** The store: ids, flags and tasks over time *)

(** X25. [send] never writes [namedEffects]: no long-running effect is ever
    registered under its id. In a store whose map is empty, as [new] builds
    it, the map is still empty after any [send], and processing a cancel-id
    unit changes nothing at all. *)
Theorem send_never_registers_by_id {State Action : Type}
    `{StrictEq State, Truthy Action}
    (fuel : nat) (action : Action) (self self' : RootStore State Action) :
  namedEffects self = ∅ →
  RootStore.send fuel action self = Some self' →
  namedEffects self' = ∅
  ∧ ∀ id pending,
      RootStore.processResolvedEffect (RCancelId id) pending self'
      = (pending, self').
Proof.
  intros Hempty Hsend. apply send_namedEffects in Hsend.
  rewrite Hempty in Hsend. split; [done|]. intros id pending.
  cbn [RootStore.processResolvedEffect]. unfold RootStore.cancel_named.
  rewrite Hsend, lookup_empty. by destruct self'.
Qed.

Lemma send_never_registers_by_id_witness :
  namedEffects Samples.polled_once = ∅
  ∧ RootStore.processResolvedEffect (RCancelId "poll") [] Samples.polled_once
    = ([], Samples.polled_once).
Proof.
  assert (Hsend : RootStore.send 1 "start" Samples.poll_store
                  = Some Samples.polled_once) by (vm_compute; reflexivity).
  destruct (send_never_registers_by_id 1 "start" Samples.poll_store
              Samples.polled_once eq_refl Hsend) as [Hmap Hcancel].
  split; [exact Hmap | exact (Hcancel "poll" [])].
Defined.

Lemma is_cancelled_allocated (m : Mem) r :
  is_cancelled m r = true → r < length (contexts m).
Proof.
  unfold is_cancelled. destruct (contexts m !! r) eqn:Hr; [|done].
  intros _. by apply lookup_lt_Some in Hr.
Qed.

Lemma is_cancelled_set_hook (r' : CtxRef) (h : option Hook) (m : Mem) r :
  is_cancelled (set_hook r' h m) r = is_cancelled m r.
Proof.
  unfold set_hook, is_cancelled. destruct h as [h|]; [|done].
  destruct (contexts m !! r') as [c|] eqn:Hr'; [|done]. cbn [contexts].
  destruct (decide (r = r')) as [->|Hne].
  - rewrite list_lookup_insert_eq by (by apply lookup_lt_Some in Hr').
    by rewrite Hr'.
  - by rewrite list_lookup_insert_ne.
Qed.

Lemma is_cancelled_resolveEffect {A} (e : Effect A) ps (m : Mem) r :
  is_cancelled m r = true → is_cancelled (resolveEffect e ps m).2 r = true.
Proof.
  intros Hc. pose proof (is_cancelled_allocated m r Hc) as Hlt.
  destruct (resolveEffect_allocates e ps m) as [-> _].
  unfold is_cancelled in *. cbn [contexts]. by rewrite lookup_app_l.
Qed.

Section permanent.
Context {State Action : Type}.
Context `{StrictEq State, Truthy Action}.
Implicit Type self : RootStore State Action.

Lemma cancel_named_keeps_cancelled self id r :
  is_cancelled (mem self) r = true →
  is_cancelled (RootStore.cancel_named self id) r = true.
Proof.
  intros Hc. unfold RootStore.cancel_named.
  destruct (namedEffects self !! id) as [context|]; [|done].
  by rewrite is_cancelled_cancel_ref, Hc.
Qed.

Lemma processResolvedEffect_keeps_cancelled x pending self r :
  is_cancelled (mem self) r = true →
  is_cancelled (mem (RootStore.processResolvedEffect x pending self).2) r = true.
Proof.
  intros Hc. destruct x as [scope|id|value|id scope context start];
    cbn [RootStore.processResolvedEffect].
  - pose proof (cancel_path_flags scope (effectTree self) (mem self) r) as Hf.
    destruct (EffectContextTree.cancel scope _ _) as [t m]. cbn [snd] in *.
    cbn [fst snd mem RootStore.with_tree]. by rewrite Hf, Hc.
  - cbn [snd mem RootStore.with_mem]. by apply cancel_named_keeps_cancelled.
  - done.
  - cbn [snd mem RootStore.with_tasks RootStore.with_tree].
    rewrite is_cancelled_set_hook.
    destruct (present id); [by apply cancel_named_keeps_cancelled | done].
Qed.

Lemma processAction_keeps_cancelled action pending self r :
  is_cancelled (mem self) r = true →
  is_cancelled (mem (RootStore.processAction action pending self).2) r = true.
Proof.
  intros Hc. unfold RootStore.processAction.
  destruct (run _ _ action _) as [newState effect].
  pose proof (is_cancelled_resolveEffect effect []
                (mem (RootStore.with_state self newState)) r Hc) as Hm.
  destruct (resolveEffect effect [] _) as [units m]. cbn [snd] in Hm.
  assert (Hstart : is_cancelled
            (mem (RootStore.with_mem (RootStore.with_state self newState) m)) r
          = true) by done.
  revert Hstart. generalize (RootStore.with_mem (RootStore.with_state self newState) m).
  clear. revert pending.
  induction units as [|x units IH]; intros pending self1 Hstart; [done|].
  cbn [foldl].
  pose proof (processResolvedEffect_keeps_cancelled x pending self1 r Hstart) as Hx.
  destruct (RootStore.processResolvedEffect x pending self1) as [pending' self2].
  by apply IH.
Qed.

Lemma drain_keeps_cancelled fuel pending self self' r :
  RootStore.drain fuel pending self = Some self' →
  is_cancelled (mem self) r = true → is_cancelled (mem self') r = true.
Proof.
  revert pending self. induction fuel as [|fuel IH]; intros pending self.
  - destruct pending as [|next pending]; simpl; [by intros [= <-]|].
    destruct (truthy next); simpl; [done | by intros [= <-]].
  - destruct pending as [|next pending]; simpl; [by intros [= <-]|].
    destruct (truthy next); simpl; [| by intros [= <-]].
    pose proof (processAction_keeps_cancelled next pending self r) as Hp.
    destruct (RootStore.processAction next pending self) as [pending' self1].
    intros Hd Hc. eapply IH; [exact Hd | by apply Hp].
Qed.
End permanent.

(** X26. Cancellation is permanent: a context whose flag is set before a
    [send] still has it set after, whatever the reducer returns and whatever
    units are processed; nothing in the store clears a flag. *)
Theorem send_keeps_cancelled_contexts_cancelled {State Action : Type}
    `{StrictEq State, Truthy Action}
    (fuel : nat) (action : Action) (self self' : RootStore State Action)
    (r : CtxRef) :
  RootStore.send fuel action self = Some self' →
  is_cancelled (mem self) r = true →
  is_cancelled (mem self') r = true.
Proof.
  unfold RootStore.send.
  destruct (RootStore.drain fuel [action] self) as [self1|] eqn:Hd; [|done].
  intros Hsend Hc. pose proof (drain_keeps_cancelled _ _ _ _ r Hd Hc) as Hc1.
  destruct (strict_eq _ _); by injection Hsend as <-.
Qed.

Lemma send_keeps_cancelled_contexts_cancelled_witness :
  is_cancelled (mem Samples.streaming_store_cancelled) 0 = true
  ∧ (λ s, is_cancelled (mem s) 0)
      <$> RootStore.send 1 (mkKindValue "child" "go")
            Samples.streaming_store_cancelled
    = Some true.
Proof.
  split; [reflexivity|].
  destruct (RootStore.send 1 (mkKindValue "child" "go")
              Samples.streaming_store_cancelled) as [self'|] eqn:Hsend;
    [|by vm_compute in Hsend].
  cbn [fmap option_fmap option_map]. f_equal.
  exact (send_keeps_cancelled_contexts_cancelled 1 (mkKindValue "child" "go")
           Samples.streaming_store_cancelled self' 0 Hsend eq_refl).
Defined.



(** ** The store: what it holds on to is allocated *)

Lemma Forall_all_contexts (P : CtxRef → Prop) (t : EffectContextTree) :
  Forall P (all_contexts t) ↔
  Forall P (tcontexts t)
  ∧ match tchildren t with
    | None => True
    | Some ch => Forall (λ kv, Forall P (all_contexts kv.2)) ch
    end.
Proof.
  rewrite all_contexts_unfold, Forall_app.
  destruct (tchildren t) as [ch|]; [|by rewrite Forall_nil].
  apply and_iff_compat_l. induction ch as [|kv ch IH].
  - by rewrite fmap_nil, !Forall_nil.
  - rewrite fmap_cons. cbn [concat]. by rewrite Forall_app, Forall_cons, IH.
Qed.

Lemma JsMap_Forall_get {V} (Q : V → Prop) k v (m : list (string * V)) :
  Forall (λ kv, Q kv.2) m → JsMap.get k m = Some v → Q v.
Proof.
  intros Hall Hget. apply JsMap_get_elem_of in Hget.
  rewrite Forall_forall in Hall. exact (Hall _ Hget).
Qed.

Lemma JsMap_Forall_set {V} (Q : V → Prop) k v (m : list (string * V)) :
  Forall (λ kv, Q kv.2) m → Q v → Forall (λ kv, Q kv.2) (JsMap.set k v m).
Proof.
  intros Hall Hv. induction Hall as [|[k' v'] m Hkv Hm IH]; cbn [JsMap.set].
  - by constructor.
  - destruct (String.eqb k k'); constructor; done.
Qed.

Lemma JsMap_Forall_delete {V} (Q : V → Prop) k (m : list (string * V)) :
  Forall (λ kv, Q kv.2) m → Forall (λ kv, Q kv.2) (JsMap.delete k m).
Proof.
  intros Hall. unfold JsMap.delete.
  induction Hall as [|kv m Hkv _ IH]; [constructor|].
  rewrite filter_cons. case_decide; [by constructor | done].
Qed.

Lemma add_all_contexts (P : CtxRef → Prop) context scope m t :
  P context → Forall P (all_contexts t) →
  Forall P (all_contexts (EffectContextTree.add context scope m t)).
Proof.
  intros Hctx. revert t. induction scope as [|head rest IH]; intros t Ht.
  - cbn [EffectContextTree.add]. destruct (is_cancelled m context); [done|].
    apply Forall_all_contexts in Ht as [Htc Hch].
    apply Forall_all_contexts. cbn [tcontexts tchildren]. split; [|done].
    apply Forall_app. split; [done|]. by constructor.
  - cbn [EffectContextTree.add]. destruct (is_cancelled m context); [done|].
    apply Forall_all_contexts in Ht as [Htc Hch].
    apply Forall_all_contexts. cbn [tcontexts tchildren]. split; [done|].
    assert (Hcs : Forall (λ kv, Forall P (all_contexts kv.2))
                    (default [] (tchildren t))).
    { destruct (tchildren t); [done | constructor]. }
    apply (JsMap_Forall_set (λ c, Forall P (all_contexts c))); [done|]. apply IH.
    destruct (JsMap.get head (default [] (tchildren t))) as [child|] eqn:Hget.
    + by apply (JsMap_Forall_get (λ c, Forall P (all_contexts c)) _ _ _ Hcs Hget).
    + constructor.
Qed.

Lemma cancel_all_contexts (P : CtxRef → Prop) path t m :
  Forall P (all_contexts t) →
  Forall P (all_contexts (EffectContextTree.cancel path t m).1).
Proof.
  revert t. induction path as [|head rest IH]; intros t Ht.
  { cbn [EffectContextTree.cancel]. rewrite cancelSelf_all. constructor. }
  cbn [EffectContextTree.cancel].
  destruct (tchildren t) as [cs|] eqn:Hch; [|done].
  destruct (JsMap.get head cs) as [child|] eqn:Hget; [|done].
  apply Forall_all_contexts in Ht as [Htc Hcs]. rewrite Hch in Hcs.
  pose proof (JsMap_Forall_get (λ c, Forall P (all_contexts c)) _ _ _ Hcs Hget)
    as Hchild.
  specialize (IH child Hchild).
  destruct (EffectContextTree.cancel rest child m) as [child' m'].
  cbn [fst] in IH.
  destruct rest; cbn [fst]; apply Forall_all_contexts; cbn [tcontexts tchildren];
    (split; [done|]).
  - apply (JsMap_Forall_delete (λ c, Forall P (all_contexts c))).
    by apply (JsMap_Forall_set (λ c, Forall P (all_contexts c))).
  - by apply (JsMap_Forall_set (λ c, Forall P (all_contexts c))).
Qed.

Lemma cancel_all_length (l : list CtxRef) (m : Mem) :
  length (contexts (foldl (λ m context, cancel_ref context m) m l))
  = length (contexts m).
Proof.
  revert m. induction l as [|x l IH]; intros m; [done|].
  cbn [foldl]. by rewrite IH, cancel_ref_length.
Qed.

Lemma cancel_path_length path t m :
  length (contexts (EffectContextTree.cancel path t m).2) = length (contexts m).
Proof.
  revert t. induction path as [|head rest IH]; intros t.
  { cbn [EffectContextTree.cancel]. rewrite cancelSelf_all. apply cancel_all_length. }
  cbn [EffectContextTree.cancel].
  destruct (tchildren t) as [cs|]; [|done].
  destruct (JsMap.get head cs) as [child|]; [|done].
  specialize (IH child).
  destruct (EffectContextTree.cancel rest child m) as [child' m'].
  by destruct rest.
Qed.

Lemma set_hook_length r h m :
  length (contexts (set_hook r h m)) = length (contexts m).
Proof.
  unfold set_hook. destruct h; [|done].
  destruct (contexts m !! r); [|done]. apply length_insert.
Qed.

Section allocated.
Context {State Action : Type}.
Context `{StrictEq State, Truthy Action}.
Implicit Type self : RootStore State Action.

Lemma cancel_named_length self id :
  length (contexts (RootStore.cancel_named self id)) = length (contexts (mem self)).
Proof.
  unfold RootStore.cancel_named.
  destruct (namedEffects self !! id); [apply cancel_ref_length | done].
Qed.

Lemma processResolvedEffect_allocated x pending self :
  unit_allocated (length (contexts (mem self))) x →
  contexts_allocated self →
  contexts_allocated (RootStore.processResolvedEffect x pending self).2
  ∧ length (contexts (mem (RootStore.processResolvedEffect x pending self).2))
    = length (contexts (mem self)).
Proof.
  intros Hx [Htree Htasks].
  destruct x as [scope|id|value|id scope context start];
    cbn [RootStore.processResolvedEffect unit_allocated] in *.
  - pose proof (cancel_path_length scope (effectTree self) (mem self)) as Hlen.
    pose proof (cancel_all_contexts _ scope _ (mem self) Htree) as Ht.
    destruct (EffectContextTree.cancel scope _ _) as [t m]. cbn [fst snd] in *.
    unfold contexts_allocated.
    cbn [mem effectTree tasks RootStore.with_tree]. by rewrite Hlen.
  - unfold contexts_allocated.
    cbn [snd mem effectTree tasks RootStore.with_mem].
    by rewrite cancel_named_length.
  - done.
  - unfold contexts_allocated.
    cbn [snd mem effectTree tasks RootStore.with_tasks RootStore.with_tree].
    rewrite set_hook_length.
    assert (Hlen : length (contexts match present id with
                                    | Some i => RootStore.cancel_named self i
                                    | None => mem self
                                    end) = length (contexts (mem self))).
    { destruct (present id); [apply cancel_named_length | done]. }
    rewrite Hlen. split; [|done]. split.
    + by apply add_all_contexts.
    + apply Forall_app. split; [done|]. by constructor.
Qed.

Lemma processResolvedEffects_allocated units pending self :
  Forall (unit_allocated (length (contexts (mem self)))) units →
  contexts_allocated self →
  contexts_allocated
    (foldl (λ '(pendingActions, self) x,
              RootStore.processResolvedEffect x pendingActions self)
       (pending, self) units).2.
Proof.
  revert pending self. induction units as [|x units IH];
    intros pending self Hunits Hself; [done|].
  cbn [foldl]. inversion_clear Hunits as [|?? Hx Hrest].
  destruct (processResolvedEffect_allocated x pending self Hx Hself) as [Hself' Hlen].
  destruct (RootStore.processResolvedEffect x pending self) as [pending' self'].
  cbn [snd] in *. apply IH; [by rewrite Hlen | done].
Qed.

Lemma resolve_nodes_units_allocated
    (ns : list (EffectNode Action * list string)) m :
  Forall (unit_allocated (length (contexts (resolve_nodes ns m).2)))
    (resolve_nodes ns m).1
  ∧ length (contexts m) ≤ length (contexts (resolve_nodes ns m).2).
Proof.
  revert m. induction ns as [|[n sc] ns IH]; intros m; [by split|].
  cbn [resolve_nodes].
  destruct (resolveEffectNode n sc m) as [r m1] eqn:Hr.
  specialize (IH m1). destruct (resolve_nodes ns m1) as [rs m2].
  cbn [fst snd] in *. destruct IH as [IHrs IHlen].
  assert (Hm1 : unit_allocated (length (contexts m1)) r
                ∧ length (contexts m) ≤ length (contexts m1)).
  { destruct n; simpl in Hr; inversion Hr; subst; cbn [unit_allocated contexts];
      rewrite ?length_app; simpl; split; auto; lia. }
  destruct Hm1 as [Hr1 Hlen1]. split; [|lia]. constructor; [|done].
  destruct r; cbn [unit_allocated] in *; auto; lia.
Qed.

Lemma processAction_allocated action pending self :
  contexts_allocated self →
  contexts_allocated (RootStore.processAction action pending self).2.
Proof.
  intros [Htree Htasks]. unfold RootStore.processAction.
  destruct (run _ _ action _) as [newState effect].
  rewrite resolveEffect_nodes.
  pose proof (resolve_nodes_units_allocated (nodes_preorder effect [])
                (mem (RootStore.with_state self newState))) as [Hunits Hlen].
  destruct (resolve_nodes _ _) as [units m]. cbn [fst snd] in *.
  apply processResolvedEffects_allocated; [done|].
  cbn [mem RootStore.with_state] in Hlen. split.
  - eapply Forall_impl; [exact Htree|]. cbn. intros r Hr. lia.
  - eapply Forall_impl; [exact Htasks|]. cbn. intros t Ht. lia.
Qed.

Lemma drain_allocated fuel pending self self' :
  RootStore.drain fuel pending self = Some self' →
  contexts_allocated self → contexts_allocated self'.
Proof.
  revert pending self. induction fuel as [|fuel IH]; intros pending self.
  - destruct pending as [|next pending]; simpl; [by intros [= <-]|].
    destruct (truthy next); simpl; [done | by intros [= <-]].
  - destruct pending as [|next pending]; simpl; [by intros [= <-]|].
    destruct (truthy next); simpl; [| by intros [= <-]].
    pose proof (processAction_allocated next pending self) as Hp.
    destruct (RootStore.processAction next pending self) as [pending' self1].
    intros Hd Hself. eapply IH; [exact Hd | by apply Hp].
Qed.
End allocated.

(** X28. The store only holds on to contexts that exist: if every context
    registered in the tree and every context of a launched task is
    allocated before a [send], the same holds after it; and it holds of a
    store just built. *)
Theorem send_keeps_contexts_allocated {State Action : Type}
    `{StrictEq State, Truthy Action}
    (fuel : nat) (action : Action) (self self' : RootStore State Action) :
  RootStore.send fuel action self = Some self' →
  contexts_allocated self →
  contexts_allocated self'.
Proof.
  unfold RootStore.send.
  destruct (RootStore.drain fuel [action] self) as [self1|] eqn:Hd; [|done].
  intros Hsend Hself. pose proof (drain_allocated _ _ _ _ Hd Hself) as Hself1.
  destruct (strict_eq _ _); by injection Hsend as <-.
Qed.

Lemma send_keeps_contexts_allocated_witness :
  contexts_allocated Samples.poll_store
  ∧ contexts_allocated Samples.polled_once.
Proof.
  assert (Hnew : contexts_allocated Samples.poll_store).
  { split; constructor. }
  assert (Hsend : RootStore.send 1 "start" Samples.poll_store
                  = Some Samples.polled_once) by (vm_compute; reflexivity).
  split; [exact Hnew|].
  exact (send_keeps_contexts_allocated 1 "start" Samples.poll_store
           Samples.polled_once Hsend Hnew).
Defined.

(** ** The store: the queue is first in, first out *)

Section queue.
Context {State Action : Type}.
Context `{StrictEq State, Truthy Action}.
Implicit Type self : RootStore State Action.

Lemma processResolvedEffect_queue x pending self :
  RootStore.processResolvedEffect x pending self =
  (pending ++ option_list (action_value x),
   (RootStore.processResolvedEffect x [] self).2).
Proof.
  destruct x; cbn [RootStore.processResolvedEffect action_value option_list];
    rewrite ?app_nil_r; try done.
  by destruct (EffectContextTree.cancel _ _ _).
Qed.

Lemma processResolvedEffects_queue units pending self :
  foldl (λ '(pendingActions, self) x,
           RootStore.processResolvedEffect x pendingActions self)
    (pending, self) units =
  (pending ++ action_values units,
   (foldl (λ '(pendingActions, self) x,
             RootStore.processResolvedEffect x pendingActions self)
      ([], self) units).2).
Proof.
  revert pending self. induction units as [|x units IH]; intros pending self.
  { cbn [foldl]. by rewrite app_nil_r. }
  cbn [foldl]. rewrite (processResolvedEffect_queue x pending).
  rewrite (processResolvedEffect_queue x []). cbn [app].
  rewrite IH. rewrite (IH (option_list _)). cbn [snd].
  rewrite action_values_cons, <- app_assoc. by destruct (action_value x).
Qed.
End queue.

(** X29. Processing an action appends to the tail of the pending queue the
    values of the action units its effect resolves to, in the order of the
    resolution, behind what was already pending; what was pending has no
    influence on the store that results. *)
Theorem processAction_appends_actions_in_order {State Action : Type}
    `{StrictEq State, Truthy Action}
    (action : Action) (pending : list Action) (self : RootStore State Action) :
  (RootStore.processAction action pending self).1 =
    pending ++
    action_values
      (resolveEffect
         (run (reducer self) (state self) action new_DependencyValues).2 []
         (mem self)).1
  ∧ (RootStore.processAction action pending self).2 =
    (RootStore.processAction action [] self).2.
Proof.
  unfold RootStore.processAction.
  destruct (run _ _ action _) as [newState effect]. cbn [snd mem RootStore.with_state].
  destruct (resolveEffect effect [] (mem self)) as [units m]. cbn [fst].
  rewrite processResolvedEffects_queue. by split.
Qed.

(** ** ScopedStore: the memoizing listener *)

(** X30. The listener that a scoped store registers with its root passes a
    projected state on only when it is not [===] to the one it passed last
    (or, before the first, to [null]): over any sequence of root states, no
    two consecutive deliveries are the same, however often the root state
    changes underneath. *)
Theorem ScopedStore_listener_skips_repeats
    {State Action LocalState LocalAction : Type}
    `{StrictEq LocalState, Nullish LocalState}
    (self : ScopedStore State Action LocalState LocalAction)
    (lastState : option LocalState) (xs : list State) :
  ScopedStore.no_repeat lastState (ScopedStore.delivered self lastState xs) = true.
Proof.
  revert lastState. induction xs as [|x xs IH]; intros lastState; [done|].
  cbn [ScopedStore.delivered]. unfold ScopedStore.listener.
  destruct (ScopedStore.same_as_last (toLocalState self x) lastState) eqn:Hsame.
  - cbn [option_list app]. apply IH.
  - change (option_list (Some ?v) ++ ?l) with (v :: l).
    cbn [ScopedStore.no_repeat]. by rewrite Hsame, IH.
Qed.
